(** * mandatory-tags: the default_tags checker of cmd/mandatory-tags/main.go

    A shallow embedding of the text-processing core of the checker
    (extractProviderBlock, extractTags, findMissingTags, joinErrors and
    checkAllAwsProviders) together with the properties stated for it.

    Go strings are immutable byte sequences: they are modelled as
    [list ascii].  Go's [int] counters are modelled in [Z]; a counter that
    moves by one per input byte cannot leave the 64-bit range, since the
    length of a string is itself an [int]. *)

From stdpp Require Import gmap strings list sorting.
From Stdlib Require Import ZArith Zbitwise Ascii Lia DecimalString.

Abbreviation gostring := (list ascii).

(** A string literal as a Go string. *)
Definition str (s : string) : gostring := String.list_ascii_of_string s.

(** A text given with an apostrophe wherever it has a double quote. *)
Definition txt (s : string) : gostring :=
  (λ c, if Ascii.eqb c "'" then "034"%char else c) <$> str s.

(** The double quote, written by its code. *)
Definition dq : ascii := "034"%char.

Definition newline : ascii := "010"%char.
Definition lbrace : ascii := "{"%char.
Definition rbrace : ascii := "}"%char.

(** ** Ranging over a string

    [for i, ch := range content] decodes one UTF-8 sequence at a time; an
    invalid sequence yields U+FFFD and advances by one byte. *)

Module utf8.

Definition byteZ (c : ascii) : Z := Z.of_N (N_of_ascii c).

Definition RuneError : Z := 0xFFFD.

(** The table [first] with [acceptRanges]: for a leading byte of a
    multi-byte sequence, its size and the range allowed for the second
    byte; [None] for a byte that cannot lead ([xx]). *)
Definition first (b : Z) : option (nat * Z * Z) :=
  if (b <? 0xC2)%Z then None
  else if (b <? 0xE0)%Z then Some (2, 0x80%Z, 0xBF%Z)
  else if (b =? 0xE0)%Z then Some (3, 0xA0%Z, 0xBF%Z)
  else if (b <? 0xED)%Z then Some (3, 0x80%Z, 0xBF%Z)
  else if (b =? 0xED)%Z then Some (3, 0x80%Z, 0x9F%Z)
  else if (b <? 0xF0)%Z then Some (3, 0x80%Z, 0xBF%Z)
  else if (b =? 0xF0)%Z then Some (4, 0x90%Z, 0xBF%Z)
  else if (b <? 0xF4)%Z then Some (4, 0x80%Z, 0xBF%Z)
  else if (b =? 0xF4)%Z then Some (4, 0x80%Z, 0x8F%Z)
  else None.

Definition locb : Z := 0x80.
Definition hicb : Z := 0xBF.

Definition outside (lo hi b : Z) : bool := ((b <? lo) || (hi <? b))%Z.

(** [DecodeRuneInString]: the rune at the head of [s] and its width. *)
Definition DecodeRuneInString (s : gostring) : Z * nat :=
  match s with
  | [] => (RuneError, 0)
  | c0 :: t0 =>
    let s0 := byteZ c0 in
    if (s0 <? 0x80)%Z then (s0, 1)
    else match first s0 with
    | None => (RuneError, 1)
    | Some (sz, lo, hi) =>
      match t0 with
      | [] => (RuneError, 1)
      | c1 :: t1 =>
        let s1 := byteZ c1 in
        if outside lo hi s1 then (RuneError, 1)
        else if sz <=? 2 then
          (Z.lor (Z.shiftl (Z.land s0 0x1F) 6) (Z.land s1 0x3F), 2)
        else match t1 with
        | [] => (RuneError, 1)
        | c2 :: t2 =>
          let s2 := byteZ c2 in
          if outside locb hicb s2 then (RuneError, 1)
          else if sz <=? 3 then
            (Z.lor (Z.lor (Z.shiftl (Z.land s0 0x0F) 12)
                          (Z.shiftl (Z.land s1 0x3F) 6))
                   (Z.land s2 0x3F), 3)
          else match t2 with
          | [] => (RuneError, 1)
          | c3 :: _ =>
            let s3 := byteZ c3 in
            if outside locb hicb s3 then (RuneError, 1)
            else
              (Z.lor (Z.lor (Z.lor (Z.shiftl (Z.land s0 0x07) 18)
                                   (Z.shiftl (Z.land s1 0x3F) 12))
                            (Z.shiftl (Z.land s2 0x3F) 6))
                     (Z.land s3 0x3F), 4)
          end
        end
      end
    end
  end.

End utf8.

(** ** extractProviderBlock *)

(** The loop of extractProviderBlock.  [s] is the text from byte offset [i]
    on; [skip] counts the bytes of the current rune still to be passed
    over, so that a rune is decoded at its first byte only.  The result is
    the end of the slice to return, or [None] when the loop runs off the
    end of the text. *)
Fixpoint scanBraces (s : gostring) (i skip : nat) (braceCount : Z)
    (inBlock : bool) : option nat :=
  match s with
  | [] => None
  | _ :: s' =>
    match skip with
    | S k => scanBraces s' (S i) k braceCount inBlock
    | O =>
      let '(ch, w) := utf8.DecodeRuneInString s in
      if (ch =? utf8.byteZ lbrace)%Z then
        scanBraces s' (S i) (w - 1) (braceCount + 1)%Z true
      else if (ch =? utf8.byteZ rbrace)%Z then
        let braceCount := (braceCount - 1)%Z in
        if (braceCount =? 0)%Z && inBlock then Some (i + 1)
        else scanBraces s' (S i) (w - 1) braceCount inBlock
      else scanBraces s' (S i) (w - 1) braceCount inBlock
    end
  end.

Definition extractProviderBlock (content : gostring) : gostring :=
  match scanBraces content 0 0 0%Z false with
  | Some e => take e content
  | None => content
  end.

(** ** The regular expressions

    The four patterns the checker matches with are sequences of single-byte
    items: a byte class, a greedily repeated or optional byte class, the
    multi-line anchor and the parentheses of the one capture group.  (The
    package-level awsProviderPattern is declared but never used.)  Matching
    follows Go's leftmost-first rule, the match a backtracking search
    finds first: a repetition takes as many bytes as it can and gives them
    back one at a time.  Every class below is a set of ASCII bytes or the
    complement of one, and every match starts and ends next to an ASCII
    byte, so matching bytes and matching runes agree. *)

Inductive atom : Type :=
  | One (p : ascii → bool)    (* x    *)
  | Star (p : ascii → bool)   (* x*   *)
  | Plus (p : ascii → bool)   (* x+   *)
  | Quest (p : ascii → bool)  (* x?   *)
  | Bol                       (* ^ under (?m) *)
  | Open                      (* (    *)
  | Close.                    (* )    *)

Abbreviation regex := (list atom).

(** The bounds of group 1, each unset until the match passes it. *)
Abbreviation capture := (option nat * option nat)%type.

Definition noCap : capture := (None, None).

(** A match in progress: the end offset reached and the bounds of group 1. *)
Abbreviation thread := (nat * capture)%type.

Definition chr (c : ascii) : ascii → bool := Ascii.eqb c.
Definition notchr (c : ascii) : ascii → bool := λ x, negb (Ascii.eqb c x).

(** \s is [\t\n\f\r ]. *)
Definition space (c : ascii) : bool :=
  chr "009" c || chr "010" c || chr "012" c || chr "013" c || chr " " c.

Definition between (lo hi c : ascii) : bool := Ascii.leb lo c && Ascii.leb c hi.

(** [a-zA-Z] *)
Definition letter (c : ascii) : bool := between "a" "z" c || between "A" "Z" c.

(** [a-zA-Z0-9_-] *)
Definition word (c : ascii) : bool :=
  between "a" "z" c || between "A" "Z" c || between "0" "9" c || chr "_" c || chr "-" c.

Global Arguments chr : simpl never.
Global Arguments notchr : simpl never.
Global Arguments space : simpl never.
Global Arguments letter : simpl never.
Global Arguments word : simpl never.

Definition lit (s : gostring) : regex := (λ c, One (chr c)) <$> s.

(** The beginning of a line: the start of the text or just after a newline. *)
Definition atLineStart (prev : option ascii) : bool :=
  match prev with
  | None => true
  | Some c => chr newline c
  end.

(** A greedy run of bytes of class [p], then [k]; on failure of [k] the run
    is shortened by one byte at a time. *)
Fixpoint greedy {R : Type} (p : ascii → bool)
    (k : option ascii → nat → gostring → option R)
    (prev : option ascii) (pos : nat) (s : gostring) : option R :=
  match s with
  | c :: s' =>
    if p c then
      match greedy p k (Some c) (S pos) s' with
      | Some r => Some r
      | None => k prev pos s
      end
    else k prev pos s
  | [] => k prev pos s
  end.

(** [exec re prev pos s cap] matches [re] at byte offset [pos], where [s] is
    the text from [pos] on and [prev] the byte before it. *)
Fixpoint exec (re : regex) (prev : option ascii) (pos : nat) (s : gostring)
    (cap : capture) : option thread :=
  match re with
  | [] => Some (pos, cap)
  | One p :: re' =>
    match s with
    | c :: s' => if p c then exec re' (Some c) (S pos) s' cap else None
    | [] => None
    end
  | Star p :: re' =>
    greedy p (λ prev pos s, exec re' prev pos s cap) prev pos s
  | Plus p :: re' =>
    match s with
    | c :: s' =>
      if p c then greedy p (λ prev pos s, exec re' prev pos s cap) (Some c) (S pos) s'
      else None
    | [] => None
    end
  | Quest p :: re' =>
    match s with
    | c :: s' =>
      if p c then
        match exec re' (Some c) (S pos) s' cap with
        | Some r => Some r
        | None => exec re' prev pos s cap
        end
      else exec re' prev pos s cap
    | [] => exec re' prev pos s cap
    end
  | Bol :: re' => if atLineStart prev then exec re' prev pos s cap else None
  | Open :: re' => exec re' prev pos s (Some pos, cap.2)
  | Close :: re' => exec re' prev pos s (cap.1, Some pos)
  end.

(** A found match: start offset, end offset, bounds of group 1. *)
Abbreviation found := (nat * nat * capture)%type.

(** The leftmost match starting at [pos] or later. *)
Fixpoint search (re : regex) (prev : option ascii) (pos : nat) (s : gostring)
    : option found :=
  match exec re prev pos s noCap with
  | Some (e, cap) => Some (pos, e, cap)
  | None =>
    match s with
    | [] => None
    | c :: s' => search re (Some c) (S pos) s'
    end
  end.

(** All successive matches, each search resuming where the previous match
    ended: [skip] is the number of bytes left of the previous match.  None
    of the patterns of this program matches the empty string. *)
Fixpoint findAll (re : regex) (prev : option ascii) (pos : nat) (s : gostring)
    (skip : nat) : list found :=
  match skip with
  | S k =>
    match s with
    | [] => []
    | c :: s' => findAll re (Some c) (S pos) s' k
    end
  | O =>
    match exec re prev pos s noCap with
    | Some (e, cap) =>
      (pos, e, cap) ::
      match s with
      | [] => []
      | c :: s' => findAll re (Some c) (S pos) s' (e - pos - 1)
      end
    | None =>
      match s with
      | [] => []
      | c :: s' => findAll re (Some c) (S pos) s' 0
      end
    end
  end.

(** [s[a:b]] *)
Definition slice (s : gostring) (a b : nat) : gostring := take (b - a) (drop a s).

(** The text of group 1, empty while a bound is unset. *)
Definition group (s : gostring) (cap : capture) : gostring :=
  match cap with
  | (Some a, Some b) => slice s a b
  | _ => []
  end.

Definition submatch (s : gostring) (m : found) : list gostring :=
  let '(a, e, cap) := m in [slice s a e; group s cap].

Definition FindAllStringIndex (re : regex) (s : gostring) : list (nat * nat) :=
  (λ m : found, m.1) <$> findAll re None 0 s 0.

Definition FindStringSubmatch (re : regex) (s : gostring) : list gostring :=
  match search re None 0 s with
  | Some m => submatch s m
  | None => []
  end.

Definition FindAllStringSubmatch (re : regex) (s : gostring) : list (list gostring) :=
  submatch s <$> findAll re None 0 s 0.

(** ** The package *)

Definition requiredTags : list gostring :=
  [ str "business-unit";
    str "application";
    str "is-production";
    str "owner";
    str "namespace";
    str "service-area";
    str "source-code";
    str "slack-channel" ].

(** tagPattern; with Q for the double quote it reads
    (?m) ^ \s* Q? ( [a-zA-Z] [a-zA-Z0-9_-]* ) Q? \s* = *)
Definition tagPattern : regex :=
  [Bol; Star space; Quest (chr dq); Open; One letter; Star word; Close;
   Quest (chr dq); Star space; One (chr "=")].

(** The pattern of the provider search: provider \s+ Q aws Q *)
Definition providerRegex : regex :=
  lit (str "provider") ++ [Plus space; One (chr dq)] ++ lit (str "aws") ++ [One (chr dq)].

(** aliasRegex: alias \s* = \s* Q ( [^Q]+ ) Q *)
Definition aliasRegex : regex :=
  lit (str "alias") ++
  [Star space; One (chr "="); Star space; One (chr dq); Open; Plus (notchr dq); Close;
   One (chr dq)].

(** tagsRegex: (?s) default_tags \s* \{ \s* tags \s* = \s* \{ ( [^}]+ ) \} *)
Definition tagsRegex : regex :=
  lit (str "default_tags") ++ [Star space; One (chr lbrace); Star space] ++
  lit (str "tags") ++
  [Star space; One (chr "="); Star space; One (chr lbrace); Open; Plus (notchr rbrace);
   Close; One (chr rbrace)].

Record providerInfo : Type := { name : gostring; tags : list gostring }.

(** fmt's %v of a []string: the elements between brackets, separated by
    one space. *)
Fixpoint spaced (l : list gostring) : gostring :=
  match l with
  | [] => []
  | [x] => x
  | x :: l' => x ++ str " " ++ spaced l'
  end.

Definition fmtStrings (l : list gostring) : gostring := str "[" ++ spaced l ++ str "]".

(** extractTags: group 1 of every match of tagPattern. *)
Definition extractTags (tagBlock : gostring) : list gostring :=
  let matches := FindAllStringSubmatch tagPattern tagBlock in
  foldl (λ tags match_,
           if 1 <? length match_ then tags ++ [nth 1 match_ []] else tags)
        [] matches.

(** findMissingTags: the required tags absent from the map of found tags. *)
Definition findMissingTags (foundTags : list gostring) : list gostring :=
  let tagMap : gmap gostring bool :=
    foldl (λ tagMap tag, <[tag := true]> tagMap) ∅ foundTags in
  foldl (λ missing required,
           if negb (default false (tagMap !! required))
           then missing ++ [required] else missing)
        [] requiredTags.

(** joinErrors: the messages, each but the first preceded by a newline. *)
Definition joinErrors (errors : list gostring) : gostring :=
  (foldl (λ '(i, result) err,
            (S i, (if 0 <? i then result ++ [newline] else result) ++ err))
         (0, []) errors).2.

Definition missingTagsMessage (providerName : gostring) (missing : list gostring)
    : gostring :=
  str "❌ Provider '" ++ providerName ++ str "' is missing tags: " ++ fmtStrings missing.

Definition noDefaultTagsMessage (providerName : gostring) : gostring :=
  str "❌ Provider '" ++ providerName ++
  str "' does not have default_tags block with all required tags".

Definition noProvidersMessage : gostring := str "❌ No AWS providers found in the file".

(** One turn of the loop of checkAllAwsProviders over the provider
    occurrences, on the accumulators [providers] and [errors]. *)
Definition checkProvider (content : gostring)
    (acc : list providerInfo * list gostring) (loc : nat * nat)
    : list providerInfo * list gostring :=
  let '(providers, errors) := acc in
  let start := loc.1 in
  let providerBlock := extractProviderBlock (drop start content) in
  let aliasMatch := FindStringSubmatch aliasRegex providerBlock in
  let providerName :=
    if 1 <? length aliasMatch
    then str "aws (alias: " ++ nth 1 aliasMatch [] ++ str ")"
    else str "aws (default)" in
  let tagsMatch := FindStringSubmatch tagsRegex providerBlock in
  if 1 <? length tagsMatch then
    let tags := extractTags (nth 1 tagsMatch []) in
    let providers := providers ++ [{| name := providerName; tags := tags |}] in
    let missing := findMissingTags tags in
    if 0 <? length missing
    then (providers, errors ++ [missingTagsMessage providerName missing])
    else (providers, errors)
  else (providers, errors ++ [noDefaultTagsMessage providerName]).

(** checkAllAwsProviders: the provider records and no error, or no record
    and the error. *)
Definition checkAllAwsProviders (content : gostring)
    : list providerInfo * option gostring :=
  let lines := FindAllStringIndex providerRegex content in
  let '(providers, errors) := foldl (checkProvider content) ([], []) lines in
  if length lines =? 0 then ([], Some noProvidersMessage)
  else if 0 <? length errors then ([], Some (joinErrors errors))
  else (providers, None).

(** ** The rest of the program: git, paths, usage and main

    The two git commands are the program's only view of the repository.  A run
    of a command is given by its arguments and answers with the combined
    output and, when the command failed, the text of its error. *)

Record cmdResult : Type := { output : gostring; failure : option gostring }.

Abbreviation command := (list gostring → cmdResult).

Definition basePath : gostring :=
  str "namespaces/live.cloud-platform.service.justice.gov.uk".

(** The pattern of getNamespace:
    namespaces/live\.cloud-platform\.service\.justice\.gov\.uk/ ( [^/]+ ) / *)
Definition namespacePattern : regex :=
  lit (str "namespaces/live.cloud-platform.service.justice.gov.uk/") ++
  [Open; Plus (notchr "/"); Close; One (chr "/")].

(** getNamespace: the first path segment under the base path among the
    files changed on the branch, or the error. *)
Definition getNamespace (git : command) (branch : gostring)
    : gostring * option gostring :=
  let cmd := git [str "diff"; str "main..." ++ branch; str "--name-only"] in
  match failure cmd with
  | Some err =>
    ([], Some (str "git diff failed: " ++ err ++ str " - " ++ output cmd))
  | None =>
    let changedFiles := output cmd in
    let matches := FindStringSubmatch namespacePattern changedFiles in
    if 1 <? length matches then (nth 1 matches [], None)
    else ([], Some (str "could not extract namespace from changed files in branch: "
                      ++ branch))
  end.

(** getFileFromBranch: the content of the file at the tip of the branch. *)
Definition getFileFromBranch (git : command) (branch filePath : gostring)
    : gostring * option gostring :=
  let cmd := git [str "show"; branch ++ str ":" ++ filePath] in
  match failure cmd with
  | Some err =>
    ([], Some (str "git show failed: " ++ err ++ str " - " ++ output cmd))
  | None => (output cmd, None)
  end.

(** strings.Join *)
Fixpoint stringsJoin (elems : list gostring) (sep : gostring) : gostring :=
  match elems with
  | [] => []
  | [x] => x
  | x :: l => x ++ sep ++ stringsJoin l sep
  end.

(** path/filepath, with the slash for separator. *)
Module filepath.

(** The elements of a path: its pieces between slashes. *)
Fixpoint elements (path : gostring) : list gostring :=
  match path with
  | [] => [[]]
  | c :: path' =>
    if chr "/" c then [] :: elements path'
    else match elements path' with
         | l :: ls => (c :: l) :: ls
         | [] => [[c]]
         end
  end.

Definition isDot (elem : gostring) : bool := bool_decide (elem = str ".").
Definition isDotDot (elem : gostring) : bool := bool_decide (elem = str "..").

(** One element read by Clean; [out] holds the elements kept so far, the
    last one first.  An empty element or a dot is dropped; two dots take
    back the last element kept, unless there is none to take back. *)
Definition keep (rooted : bool) (out : list gostring) (elem : gostring)
    : list gostring :=
  if bool_decide (elem = []) || isDot elem then out
  else if isDotDot elem then
    match out with
    | top :: rest => if isDotDot top then elem :: out else rest
    | [] => if rooted then [] else [elem]
    end
  else elem :: out.

Definition Clean (path : gostring) : gostring :=
  match path with
  | [] => str "."
  | c :: _ =>
    let rooted := chr "/" c in
    let out := foldl (keep rooted) [] (elements path) in
    let cleaned := (if rooted then str "/" else []) ++ stringsJoin (rev out) (str "/") in
    match cleaned with
    | [] => str "."
    | _ => cleaned
    end
  end.

(** Join: the elements from the first one that is not empty, joined by
    slashes and cleaned. *)
Fixpoint Join (elem : list gostring) : gostring :=
  match elem with
  | [] => []
  | e :: elem' =>
    match e with
    | [] => Join elem'
    | _ => Clean (stringsJoin elem (str "/"))
    end
  end.

End filepath.

(** fmt's %d of a length. *)
Definition fmtInt (n : nat) : gostring := str (NilZero.string_of_uint (Nat.to_uint n)).

(** printUsage: the text written to the error stream.  [arg0] is
    os.Args[0] and [defaults] the text of flag.PrintDefaults. *)
Definition printUsage (arg0 defaults : gostring) : gostring :=
  str "Branch Default Tags Checker
" ++ str "===========================

" ++ str "This tool searches a git branch for default_tags in Terraform main.tf files.

" ++ str "Usage: " ++ arg0 ++ str " [options]

" ++ str "Options:
" ++ defaults ++ str "
Environment Variables:
" ++ str "  NAMESPACE    - The namespace to search
" ++ str "  BRANCH_NAME  - The branch name to search
" ++ str "
Examples:
" ++ str "  " ++ arg0 ++ str " -namespace=my-namespace -branch=my-branch
" ++ str "  NAMESPACE=my-namespace BRANCH_NAME=my-branch " ++ arg0 ++ str "
" ++ str "  " ++ arg0 ++ str " -h

".

(** strconv.ParseBool *)
Definition ParseBool (s : gostring) : option bool :=
  if bool_decide (s ∈ [str "1"; str "t"; str "T"; str "true"; str "TRUE"; str "True"])
  then Some true
  else if bool_decide (s ∈ [str "0"; str "f"; str "F"; str "false"; str "FALSE";
                            str "False"])
  then Some false
  else None.

(** The values of the two flag variables, help and branchName. *)
Record flagValues : Type := { help : bool; branchName : gostring }.

(** The flag package (Go 1.15 and later), for the two flags of the program:
    -h, a boolean, and -branch, a string. *)
Module flag.

(** How Parse ends: the flags are read, help was asked for with a flag that
    is not defined, or an argument is refused with a message. *)
Inductive result : Type :=
  | Parsed (values : flagValues)
  | ErrHelp
  | Failed (msg : gostring).

(** What an argument is: no flag (this ends the parsing), a flag badly
    written, or a flag with its name and, after an equals sign, its value. *)
Inductive argument : Type :=
  | NotFlag
  | BadSyntax
  | Flag (name : gostring) (value : option gostring).

(** The name up to the first equals sign and the value after it. *)
Fixpoint cut (name : gostring) : gostring * option gostring :=
  match name with
  | [] => ([], None)
  | c :: name' =>
    if chr "=" c then ([], Some name')
    else let '(n, v) := cut name' in (c :: n, v)
  end.

(** The first steps of parseOne.  An argument shorter than two bytes or
    without a leading minus is no flag, and neither are two minus signs
    alone; one or two minus signs are dropped; a name that is empty or
    starts with a minus or an equals sign is refused; the equals sign that
    splits name and value is not the first byte of the name. *)
Definition classify (s : gostring) : argument :=
  match s with
  | c0 :: c1 :: s' =>
    if negb (chr "-" c0) then NotFlag
    else if chr "-" c1 && bool_decide (s' = []) then NotFlag
    else
      match (if chr "-" c1 then s' else c1 :: s') with
      | [] => BadSyntax
      | n0 :: name' =>
        if chr "-" n0 || chr "=" n0 then BadSyntax
        else let '(n, v) := cut name' in Flag (n0 :: n) v
      end
  | _ => NotFlag
  end.

(** Parse: parseOne, again and again.  [fmtQ] is fmt's verb q on a string;
    [values] holds the flag variables, at first their defaults. *)
Fixpoint Parse (fmtQ : gostring → gostring) (values : flagValues)
    (arguments : list gostring) : result :=
  match arguments with
  | [] => Parsed values
  | s :: rest =>
    match classify s with
    | NotFlag => Parsed values
    | BadSyntax => Failed (str "bad flag syntax: " ++ s)
    | Flag name value =>
      if bool_decide (name = str "h") then
        match value with
        | Some v =>
          match ParseBool v with
          | Some b => Parse fmtQ {| help := b; branchName := branchName values |} rest
          | None =>
            Failed (str "invalid boolean value " ++ fmtQ v ++ str " for -h: parse error")
          end
        | None => Parse fmtQ {| help := true; branchName := branchName values |} rest
        end
      else if bool_decide (name = str "branch") then
        match value with
        | Some v => Parse fmtQ {| help := help values; branchName := v |} rest
        | None =>
          match rest with
          | v :: rest' => Parse fmtQ {| help := help values; branchName := v |} rest'
          | [] => Failed (str "flag needs an argument: -branch")
          end
        end
      else if bool_decide (name = str "help") then ErrHelp
      else Failed (str "flag provided but not defined: -" ++ name)
    end
  end.

End flag.

(** What a run of the program is given: the arguments after the name of
    the program, this name, the value of BRANCH_NAME in the environment,
    the text of flag.PrintDefaults, fmt's verb q and the git command. *)
Record invocation : Type := {
  args : list gostring;
  arg0 : gostring;
  envBranchName : gostring;
  flagDefaults : gostring;
  fmtQ : gostring → gostring;
  git : command
}.

(** flag.Parse on the arguments of the run: -h is false by default and
    -branch is the value of BRANCH_NAME. *)
Definition parseFlags (call : invocation) : flag.result :=
  flag.Parse (fmtQ call) {| help := false; branchName := envBranchName call |}
    (args call).

(** What a run leaves: the two streams and the exit status. *)
Record outcome : Type := { stdout : gostring; stderr : gostring; exitCode : nat }.

(** The lines main prints for one provider. *)
Definition providerReport (provider : providerInfo) : gostring :=
  str "Provider: " ++ name provider ++ [newline] ++ str "Tags:" ++ [newline] ++
  concat ((λ tag, str "  ✓ " ++ tag ++ [newline]) <$> tags provider) ++ [newline].

(** main.  When flag.Parse refuses an argument it prints its message and
    the usage and exits with status 2; when help is asked for with a flag
    that is not defined it prints the usage and exits with status 0. *)
Definition main (call : invocation) : outcome :=
  let usage := printUsage (arg0 call) (flagDefaults call) in
  match parseFlags call with
  | flag.Failed msg =>
    {| stdout := []; stderr := msg ++ [newline] ++ usage; exitCode := 2 |}
  | flag.ErrHelp => {| stdout := []; stderr := usage; exitCode := 0 |}
  | flag.Parsed values =>
    if help values then {| stdout := []; stderr := usage; exitCode := 0 |}
    else if bool_decide (branchName values = []) then
      {| stdout := [];
         stderr := str "Error: BRANCH_NAME must be set." ++ [newline] ++ usage;
         exitCode := 1 |}
    else
      let '(namespace, err) := getNamespace (git call) (branchName values) in
      match err with
      | Some err =>
        {| stdout := [];
           stderr := str "Error: Could not determine namespace: " ++ err ++ [newline];
           exitCode := 1 |}
      | None =>
        let resourcePath :=
          filepath.Join [basePath; namespace; str "resources"; str "main.tf"] in
        let searching :=
          str "Searching for default_tags in " ++ resourcePath ++ str " on branch "
          ++ branchName values ++ str "..." ++ [newline; newline] in
        let '(content, err) :=
          getFileFromBranch (git call) (branchName values) resourcePath in
        match err with
        | Some err =>
          {| stdout := searching;
             stderr := str "Error: Could not read file from branch: " ++ err ++ [newline];
             exitCode := 1 |}
        | None =>
          let '(providers, err) := checkAllAwsProviders content in
          match err with
          | Some err =>
            {| stdout := searching;
               stderr := str "Error: " ++ err ++ [newline];
               exitCode := 1 |}
          | None =>
            {| stdout :=
                 searching ++ str "✅ All " ++ fmtInt (length providers)
                 ++ str " AWS provider(s) have the required tags" ++ [newline; newline]
                 ++ concat (providerReport <$> providers);
               stderr := [];
               exitCode := 0 |}
          end
        end
      end
  end.

(** ** Vocabulary of the properties *)

(** The brace-depth counter after the bytes of [s], started at [d]. *)
Definition depthFrom (d : Z) (s : gostring) : Z :=
  foldl (λ d c, if chr lbrace c then (d + 1)%Z
                else if chr rbrace c then (d - 1)%Z else d) d s.

Definition braceDepth (s : gostring) : Z := depthFrom 0 s.

(** The loop of extractProviderBlock read byte by byte. *)
Fixpoint scanBytes (s : gostring) (i : nat) (braceCount : Z) (inBlock : bool)
    : option nat :=
  match s with
  | [] => None
  | c :: s' =>
    if chr lbrace c then scanBytes s' (S i) (braceCount + 1)%Z true
    else if chr rbrace c then
      if ((braceCount - 1)%Z =? 0)%Z && inBlock then Some (i + 1)
      else scanBytes s' (S i) (braceCount - 1)%Z inBlock
    else scanBytes s' (S i) braceCount inBlock
  end.

(** Whether the closing brace at offset [j] of [s] brings the counter to zero. *)
Definition closesAt (s : gostring) (j : nat) : bool :=
  bool_decide (s !! j = Some rbrace) && (braceDepth (take (S j) s) =? 0)%Z.

(** A byte of a multi-byte sequence, or an invalid one. *)
Definition high (c : ascii) : Prop := (0x80 ≤ utf8.byteZ c)%Z.

(** The byte before the offset reached after the bytes [u], [prev] being
    the byte before them. *)
Definition lastOr (prev : option ascii) (u : gostring) : option ascii :=
  match last u with
  | Some c => Some c
  | None => prev
  end.

(** The longest prefix of bytes of class [p], and what follows it. *)
Fixpoint takew (p : ascii → bool) (s : gostring) : gostring :=
  match s with
  | c :: s' => if p c then c :: takew p s' else []
  | [] => []
  end.

Fixpoint dropw (p : ascii → bool) (s : gostring) : gostring :=
  match s with
  | c :: s' => if p c then dropw p s' else s
  | [] => []
  end.

(** Matching without giving back: a repetition takes its longest run and an
    optional byte is taken when present.  [exec] agrees with it on a pattern
    in which what follows a repetition cannot start with a byte of the
    repeated class ([detb]), which is the case of all four patterns. *)
Fixpoint run (re : regex) (prev : option ascii) (pos : nat) (s : gostring)
    (cap : capture) : option thread :=
  match re with
  | [] => Some (pos, cap)
  | One p :: re' =>
    match s with
    | c :: s' => if p c then run re' (Some c) (S pos) s' cap else None
    | [] => None
    end
  | Star p :: re' =>
    run re' (lastOr prev (takew p s)) (pos + length (takew p s)) (dropw p s) cap
  | Plus p :: re' =>
    match s with
    | c :: s' =>
      if p c then
        run re' (lastOr (Some c) (takew p s')) (S pos + length (takew p s'))
            (dropw p s') cap
      else None
    | [] => None
    end
  | Quest p :: re' =>
    match s with
    | c :: s' => if p c then run re' (Some c) (S pos) s' cap else run re' prev pos s cap
    | [] => run re' prev pos s cap
    end
  | Bol :: re' => if atLineStart prev then run re' prev pos s cap else None
  | Open :: re' => run re' prev pos s (Some pos, cap.2)
  | Close :: re' => run re' prev pos s (cap.1, Some pos)
  end.

(** Whether [re] is sure to fail on a text that starts with the byte [c]. *)
Fixpoint firstRejects (re : regex) (c : ascii) : bool :=
  match re with
  | [] => false
  | One p :: _ => negb (p c)
  | Plus p :: _ => negb (p c)
  | Star p :: re' => negb (p c) && firstRejects re' c
  | Quest p :: re' => negb (p c) && firstRejects re' c
  | Bol :: re' => firstRejects re' c
  | Open :: re' => firstRejects re' c
  | Close :: re' => firstRejects re' c
  end.

Definition allBytes : gostring := ascii_of_nat <$> seq 0 256.

Definition excludes (p : ascii → bool) (re : regex) : bool :=
  forallb (λ c, implb (p c) (firstRejects re c)) allBytes.

Fixpoint detb (re : regex) : bool :=
  match re with
  | [] => true
  | Star p :: re' => excludes p re' && detb re'
  | Plus p :: re' => excludes p re' && detb re'
  | Quest p :: re' => excludes p re' && detb re'
  | _ :: re' => detb re'
  end.

(** What one provider occurrence contributes to the scan: its block, its
    name, its record and the message raised against it. *)
Definition blockOf (content : gostring) (loc : nat * nat) : gostring :=
  extractProviderBlock (drop loc.1 content).

Definition providerNameOf (block : gostring) : gostring :=
  if 1 <? length (FindStringSubmatch aliasRegex block)
  then str "aws (alias: " ++ nth 1 (FindStringSubmatch aliasRegex block) [] ++ str ")"
  else str "aws (default)".

Definition hasTagsMap (block : gostring) : bool :=
  1 <? length (FindStringSubmatch tagsRegex block).

Definition tagsOf (block : gostring) : list gostring :=
  extractTags (nth 1 (FindStringSubmatch tagsRegex block) []).

Definition providerRecord (content : gostring) (loc : nat * nat) : option providerInfo :=
  let block := blockOf content loc in
  if hasTagsMap block
  then Some {| name := providerNameOf block; tags := tagsOf block |}
  else None.

Definition providerError (content : gostring) (loc : nat * nat) : option gostring :=
  let block := blockOf content loc in
  if hasTagsMap block then
    match findMissingTags (tagsOf block) with
    | [] => None
    | missing => Some (missingTagsMessage (providerNameOf block) missing)
    end
  else Some (noDefaultTagsMessage (providerNameOf block)).

(** A provider record that lacks no required tag. *)
Definition compliant (p : providerInfo) : Prop :=
  findMissingTags (tags p) = [] ∧ ∀ r, r ∈ requiredTags → r ∈ tags p.

(** An occurrence of the provider pattern: the word provider, at least
    one byte of white space, and aws between double quotes. *)
Definition providerOccurrence (content : gostring) : Prop :=
  ∃ pre ws post,
    content = pre ++ str "provider" ++ ws ++ [dq] ++ str "aws" ++ [dq] ++ post
    ∧ ws ≠ [] ∧ Forall (λ c, space c = true) ws.

(** The offsets at which the text [w] occurs in [s]. *)
Definition occursAt (w s : gostring) (k : nat) : bool :=
  bool_decide (take (length w) (drop k s) = w).

Definition occurrences (w s : gostring) : list nat :=
  filter (λ k, occursAt w s k = true) (seq 0 (S (length s))).

(** A default_tags block whose tags map is empty: nothing stands between
    the braces of the map. *)
Definition emptyTagsMap (ws1 ws2 ws3 ws4 : gostring) : gostring :=
  str "default_tags" ++ ws1 ++ [lbrace] ++ ws2 ++ str "tags" ++ ws3 ++ str "="
  ++ ws4 ++ [lbrace; rbrace].

Definition blank (ws : gostring) : Prop := Forall (λ c, space c = true) ws.

(** The lines of a text: its pieces between newlines. *)
Fixpoint lines (s : gostring) : list gostring :=
  match s with
  | [] => [[]]
  | c :: s' =>
    if chr newline c then [] :: lines s'
    else match lines s' with
         | l :: ls => (c :: l) :: ls
         | [] => [[c]]
         end
  end.

(** The key of a line: group 1 of tagPattern matched on the line by itself,
    from its first byte. *)
Definition lineKey (line : gostring) : option gostring :=
  match exec tagPattern None 0 line noCap with
  | Some (_, cap) => Some (group line cap)
  | None => None
  end.

(** Reading the tags line by line: for each line that matches the pattern,
    its key; the other lines give nothing. *)
Definition extractTagsByLine (tagBlock : gostring) : list gostring :=
  omap lineKey (lines tagBlock).

(** Whether the first byte of [s] that is not white space is an equals sign. *)
Definition equalsNext (s : gostring) : bool :=
  match dropw space s with
  | c :: _ => chr "=" c
  | [] => false
  end.

(** Whether no newline of [s] is followed, after white space only, by an
    equals sign. *)
Fixpoint noEqualsAfterBreak (s : gostring) : bool :=
  match s with
  | [] => true
  | c :: s' =>
    (if chr newline c then negb (equalsNext s') else true) && noEqualsAfterBreak s'
  end.

(** Offsets moved by [k]. *)
Definition shiftCap (k : nat) (cap : capture) : capture :=
  (Nat.add k <$> cap.1, Nat.add k <$> cap.2).

Definition shiftThread (k : nat) (t : thread) : thread := (k + t.1, shiftCap k t.2).

(** Whether a match of [re] takes at least one byte. *)
Definition needs (re : regex) : bool :=
  existsb (λ a, match a with One _ | Plus _ => true | _ => false end) re.

Definition anchored (re : regex) : bool :=
  existsb (λ a, match a with Bol => true | _ => false end) re.

(** tagPattern after its anchor and its leading white space. *)
Definition tagKeyPattern : regex :=
  [Quest (chr dq); Open; One letter; Star word; Close; Quest (chr dq); Star space;
   One (chr "=")].

(** [re] fails on the text [t] wherever it is started. *)
Definition runFails (re : regex) (t : gostring) : Prop :=
  ∀ prev pos cap, run re prev pos t cap = None.

(** [re] cannot go on into the text [t]: started on [t] or on the empty
    text, each of its byte-taking items fails with what follows it. *)
Fixpoint deaf (re : regex) (t : gostring) : Prop :=
  match re with
  | [] => True
  | a :: re' =>
    match a with
    | One _ | Quest _ | Star _ => runFails re t ∧ runFails re []
    | Plus p => runFails re t ∧ runFails (Star p :: re') t ∧ runFails (Star p :: re') []
    | _ => True
    end ∧ deaf re' t
  end.

(** A text without a newline. *)
Abbreviation unbroken := (Forall (λ c : ascii, chr newline c = false)).

(** A text whose braces match. *)
Inductive balanced : gostring → Prop :=
  | balanced_nil : balanced []
  | balanced_byte (c : ascii) (s : gostring) :
      chr lbrace c = false → chr rbrace c = false → balanced s → balanced (c :: s)
  | balanced_block (s t : gostring) :
      balanced s → balanced t → balanced (lbrace :: s ++ rbrace :: t).

Definition braceFree (s : gostring) : Prop :=
  Forall (λ c, chr lbrace c = false ∧ chr rbrace c = false) s.

(** An optional double quote. *)
Definition quote (b : bool) : gostring := if b then [dq] else [].

(** Two byte classes without a common byte. *)
Definition disjoint (p q : ascii → bool) : bool :=
  forallb (λ c, negb (p c && q c)) allBytes.

(** A default_tags block with its tags map, up to the brace that closes
    the map. *)
Definition tagsMapText (ws1 ws2 ws3 ws4 interior : gostring) : gostring :=
  str "default_tags" ++ ws1 ++ [lbrace] ++ ws2 ++ str "tags" ++ ws3 ++ str "="
  ++ ws4 ++ [lbrace] ++ interior ++ [rbrace].

(** A tag name: a letter followed by letters, digits, underscores or
    hyphens. *)
Definition tagName (tag : gostring) : Prop :=
  ∃ c w, tag = c :: w ∧ letter c = true ∧ Forall (λ x, word x = true) w.

(** The line main prints before it reads the file. *)
Definition searchingLine (resourcePath branch : gostring) : gostring :=
  str "Searching for default_tags in " ++ resourcePath ++ str " on branch "
  ++ branch ++ str "..." ++ [newline; newline].

(** The lines main prints after a scan without error. *)
Definition successLines (providers : list providerInfo) : gostring :=
  str "✅ All " ++ fmtInt (length providers)
  ++ str " AWS provider(s) have the required tags" ++ [newline; newline]
  ++ concat (providerReport <$> providers).

(** The path of the resource file of a namespace. *)
Definition resourceFile (namespace : gostring) : gostring :=
  basePath ++ str "/" ++ namespace ++ str "/resources/main.tf".

(** ** Sample texts *)

Definition nested_example : gostring :=
  txt "provider 'aws' { default_tags { tags = { a = 'b' } } } provider 'aws' { }".

(** The provider block of the scenario, written on one line. *)
Definition oneLineScenario : gostring :=
  txt "provider 'aws' { default_tags { tags = { business-unit = 'x' application = 'y' is-production = 'true' owner = 'z' namespace = 'ns' service-area = 'a' source-code = 'url' slack-channel = '#c' } } }".

(** The same block with each assignment of the tags map on its own line. *)
Definition manyLinesScenario : gostring :=
  txt "provider 'aws' { default_tags { tags = {
business-unit = 'x'
application = 'y'
is-production = 'true'
owner = 'z'
namespace = 'ns'
service-area = 'a'
source-code = 'url'
slack-channel = '#c'
} } }".

Definition allTags : list gostring :=
  [ str "business-unit"; str "application"; str "is-production"; str "owner";
    str "namespace"; str "service-area"; str "source-code"; str "slack-channel" ].

(** A key and its equals sign on two lines. *)
Definition brokenAssignment : gostring :=
  txt "owner
= 'x'".

(** A tags map with comments, a blank line, quoted keys and a repeated key. *)
Definition mixedTagsMap : gostring :=
  txt "
  # the owning team
  owner = 'z'
  'namespace' = 'ns'

  owner = 'again'
}".

(** Three providers: without tags map, compliant, and short of one tag. *)
Definition threeProviders : gostring :=
  txt "provider 'aws' { region = 'eu-west-2' }
" ++ manyLinesScenario ++ txt "
provider 'aws' {
  alias = 'replica'
  default_tags { tags = {
    business-unit = 'x'
    application = 'y'
    is-production = 'true'
    owner = 'z'
    namespace = 'ns'
    service-area = 'a'
    source-code = 'url'
  } }
}".

Definition emptyMapProvider : gostring :=
  txt "provider 'aws' { default_tags { tags = {} } }".

(** A provider without default_tags. *)
Definition bareProvider : gostring :=
  txt "provider 'aws' { region = 'eu-west-2' }".

(** A repository whose branch changes one file of the namespace my-ns;
    [shown] is the answer of git show. *)
Definition sampleGit (shown : cmdResult) : command := λ args,
  match args with
  | sub :: _ =>
    if bool_decide (sub = str "diff")
    then {| output := str "README.md
namespaces/live.cloud-platform.service.justice.gov.uk/my-ns/resources/main.tf
";
            failure := None |}
    else shown
  | [] => shown
  end.

Definition sampleCall (shown : cmdResult) : invocation :=
  {| args := [str "-branch"; str "my-branch"]; arg0 := str "mandatory-tags";
     envBranchName := []; flagDefaults := []; fmtQ := λ s, [dq] ++ s ++ [dq];
     git := sampleGit shown |}.

Definition aliasBlock : gostring :=
  txt "{ alias = 'replica'
}".

Definition ownerBlock : gostring :=
  txt "provider 'aws' { default_tags { tags = {
owner = 'z'
} } }".

(** Powers of two in a goal, evaluated. *)
Ltac pows :=
  repeat match goal with
  | |- context [(2 ^ ?n)%Z] =>
    let v := eval vm_compute in (2 ^ n)%Z in change (2 ^ n)%Z with v
  end.

(** * Properties *)

(** ** Ranging by rune and ranging by byte *)

Lemma lor_ge_l (a b : Z) : (0 ≤ b → a ≤ Z.lor a b)%Z.
Proof.
  intros Hb. pose proof (Z.sub_lor_l_same_l b a) as E.
  assert (0 ≤ Z.land b (Z.lnot a))%Z by (apply Z.land_nonneg; lia).
  lia.
Qed.

Lemma lor_ge_r (a b : Z) : (0 ≤ a → b ≤ Z.lor a b)%Z.
Proof. intros. rewrite Z.lor_comm. by apply lor_ge_l. Qed.

Lemma byteZ_range (c : ascii) : (0 ≤ utf8.byteZ c < 256)%Z.
Proof. by destruct c as [[] [] [] [] [] [] [] []]. Qed.

Lemma byteZ_inj (c d : ascii) : utf8.byteZ c = utf8.byteZ d → c = d.
Proof.
  unfold utf8.byteZ. intros E. apply N2Z.inj in E.
  rewrite <- (ascii_N_embedding c), <- (ascii_N_embedding d). by rewrite E.
Qed.

Lemma bits_nonneg (x m k : Z) : (0 ≤ m → 0 ≤ Z.shiftl (Z.land x m) k)%Z.
Proof. intros. apply Z.shiftl_nonneg, Z.land_nonneg. by right. Qed.

Lemma low_bits (x n k : Z) :
  (0 ≤ n → 0 ≤ k → Z.shiftl (Z.land x (Z.ones n)) k = (x mod 2 ^ n) * 2 ^ k)%Z.
Proof. intros. by rewrite Z.land_ones, Z.shiftl_mul_pow2. Qed.

Lemma first_spec (b : Z) sz lo hi :
  utf8.first b = Some (sz, lo, hi) →
  (0x80 ≤ lo)%Z ∧ (hi ≤ 0xBF)%Z ∧
  ((sz = 2 ∧ (0xC2 ≤ b < 0xE0)%Z) ∨
   (sz = 3 ∧ (0xE0 ≤ b < 0xF0)%Z ∧ (b = 0xE0%Z → lo = 0xA0%Z)) ∨
   (sz = 4 ∧ (0xF0 ≤ b ≤ 0xF4)%Z ∧ (b = 0xF0%Z → lo = 0x90%Z))).
Proof.
  unfold utf8.first.
  repeat (case_match; [try discriminate; intros [= <- <- <-]; lia|]);
    try discriminate.
Qed.
Lemma outside_false lo hi b : utf8.outside lo hi b = false → (lo ≤ b ≤ hi)%Z.
Proof. unfold utf8.outside. intros H. apply orb_false_iff in H. lia. Qed.

Lemma decode_cases (c : ascii) (s : gostring) :
  let '(r, w) := utf8.DecodeRuneInString (c :: s) in
  (¬ high c ∧ r = utf8.byteZ c ∧ w = 1) ∨
  (high c ∧ (0x80 ≤ r)%Z ∧ Forall high (take (w - 1) s)).
Proof.
  unfold utf8.DecodeRuneInString, high.
  pose proof (byteZ_range c) as Hc.
  destruct (utf8.byteZ c <? 128)%Z eqn:Hlow; [left; lia|].
  assert (Hhigh : (128 ≤ utf8.byteZ c)%Z) by lia.
  assert (Herr : (128 ≤ utf8.RuneError)%Z) by (unfold utf8.RuneError; lia).
  destruct (utf8.first (utf8.byteZ c)) as [[[sz lo] hi]|] eqn:F;
    [|right; simpl; auto].
  apply first_spec in F as (Hlo & Hhi & F).
  destruct s as [|c1 t1]; [right; simpl; auto|].
  destruct (utf8.outside lo hi (utf8.byteZ c1)) eqn:O1; [right; simpl; auto|].
  apply outside_false in O1.
  assert (H1 : high c1) by (unfold high; lia).
  pose proof (byteZ_range c1) as Hc1.
  destruct F as [[-> Hb]|[[-> [Hb Hl]]|[-> [Hb Hl]]]]; simpl (_ <=? _).
  - right. split_and!; [done| |simpl; repeat constructor; lia].
    etrans; [|apply lor_ge_l, Z.land_nonneg; lia].
    change 31%Z with (Z.ones 5). rewrite low_bits by lia. pows. Z.div_mod_to_equations. lia.
  - destruct t1 as [|c2 t2]; [right; simpl; auto|].
    destruct (utf8.outside utf8.locb utf8.hicb (utf8.byteZ c2)) eqn:O2;
      [right; simpl; auto|].
    apply outside_false in O2. unfold utf8.locb in O2.
    right. split_and!; [done| |simpl; repeat constructor; lia].
    etrans; [|apply lor_ge_l, Z.land_nonneg; lia].
    change 15%Z with (Z.ones 4). change 63%Z with (Z.ones 6).
    destruct (decide (utf8.byteZ c = 0xE0%Z)) as [E|E].
    + etrans; [|apply lor_ge_r, bits_nonneg; done].
      rewrite low_bits by lia. specialize (Hl E). pows. Z.div_mod_to_equations. lia.
    + etrans; [|apply lor_ge_l, bits_nonneg; done].
      rewrite low_bits by lia. pows. Z.div_mod_to_equations. lia.
  - destruct t1 as [|c2 t2]; [right; simpl; auto|].
    destruct (utf8.outside utf8.locb utf8.hicb (utf8.byteZ c2)) eqn:O2;
      [right; simpl; auto|].
    apply outside_false in O2. unfold utf8.locb in O2.
    destruct t2 as [|c3 t3]; [right; simpl; auto|].
    destruct (utf8.outside utf8.locb utf8.hicb (utf8.byteZ c3)) eqn:O3;
      [right; simpl; auto|].
    apply outside_false in O3. unfold utf8.locb in O3.
    right. split_and!; [done| |simpl; repeat constructor; lia].
    etrans; [|apply lor_ge_l, Z.land_nonneg; lia].
    etrans; [|apply lor_ge_l, bits_nonneg; done].
    change 7%Z with (Z.ones 3). change 63%Z with (Z.ones 6).
    destruct (decide (utf8.byteZ c = 0xF0%Z)) as [E|E].
    + etrans; [|apply lor_ge_r, bits_nonneg; done].
      rewrite low_bits by lia. specialize (Hl E). pows. Z.div_mod_to_equations. lia.
    + etrans; [|apply lor_ge_l, bits_nonneg; done].
      rewrite low_bits by lia. pows. Z.div_mod_to_equations. lia.
Qed.

Lemma chr_true (c d : ascii) : chr c d = true ↔ c = d.
Proof. apply Ascii.eqb_eq. Qed.

Lemma chr_false (c d : ascii) : chr c d = false ↔ c ≠ d.
Proof. apply Ascii.eqb_neq. Qed.

Lemma chr_byteZ (c d : ascii) : (utf8.byteZ d =? utf8.byteZ c)%Z = chr c d.
Proof.
  destruct (chr c d) eqn:E.
  - apply chr_true in E as ->. apply Z.eqb_refl.
  - apply chr_false in E. apply Z.eqb_neq. intros E'. by apply byteZ_inj in E'.
Qed.

Lemma high_not_brace (c : ascii) : high c → chr lbrace c = false ∧ chr rbrace c = false.
Proof.
  unfold high. intros H. split; apply chr_false; intros <-; vm_compute in H; by apply H.
Qed.

Lemma scanBytes_skip (k : nat) (s : gostring) (i : nat) (bc : Z) (ib : bool) :
  Forall high (take k s) →
  scanBytes s i bc ib = scanBytes (drop k s) (i + k) bc ib.
Proof.
  revert s i. induction k as [|k IH]; intros s i H.
  - by rewrite drop_0, Nat.add_0_r.
  - destruct s as [|c s]; [done|]. simpl in H. apply Forall_cons in H as [Hc H].
    apply high_not_brace in Hc as [E1 E2]. cbn [scanBytes drop]. rewrite E1, E2.
    rewrite (IH _ _ H). f_equal. lia.
Qed.

Lemma scanBraces_bytes (s : gostring) (i skip : nat) (bc : Z) (ib : bool) :
  Forall high (take skip s) →
  scanBraces s i skip bc ib = scanBytes (drop skip s) (i + skip) bc ib.
Proof.
  revert i skip bc ib. induction s as [|c s IH]; intros i skip bc ib H.
  - by destruct skip.
  - destruct skip as [|k].
    + cbn [scanBraces drop]. rewrite Nat.add_0_r.
      pose proof (decode_cases c s) as D.
      destruct (utf8.DecodeRuneInString (c :: s)) as [r w].
      destruct D as [(_ & -> & ->)|(Hc & Hr & Hw)].
      * rewrite !chr_byteZ. simpl.
        destruct (chr lbrace c); [by rewrite IH, drop_0, Nat.add_0_r by done|].
        destruct (chr rbrace c); [|by rewrite IH, drop_0, Nat.add_0_r by done].
        destruct (_ && _); [done|]. by rewrite IH, drop_0, Nat.add_0_r by done.
      * assert ((r =? utf8.byteZ lbrace)%Z = false) as ->
          by (apply Z.eqb_neq; intros ->; vm_compute in Hr; by apply Hr).
        assert ((r =? utf8.byteZ rbrace)%Z = false) as ->
          by (apply Z.eqb_neq; intros ->; vm_compute in Hr; by apply Hr).
        apply high_not_brace in Hc as [E1 E2]. simpl. rewrite E1, E2.
        rewrite (IH _ _ _ _ Hw). symmetry. by apply scanBytes_skip.
    + simpl in H. apply Forall_cons in H as [_ H]. simpl.
      rewrite (IH _ _ _ _ H). f_equal. lia.
Qed.

(** ** extractProviderBlock *)

Lemma extractProviderBlock_bytes (content : gostring) :
  extractProviderBlock content =
  match scanBytes content 0 0%Z false with
  | Some e => take e content
  | None => content
  end.
Proof. unfold extractProviderBlock. by rewrite scanBraces_bytes, drop_0. Qed.

Lemma depthFrom_cons (d : Z) (c : ascii) (s : gostring) :
  depthFrom d (c :: s) =
  depthFrom (if chr lbrace c then d + 1 else if chr rbrace c then d - 1 else d)%Z s.
Proof. done. Qed.

(** Once the loop has seen its first opening brace the flag is set; before
    that the counter is at most zero. *)
Lemma scanBytes_found (s : gostring) (i : nat) (bc : Z) (ib : bool) (n : nat) :
  (ib = false → (bc ≤ 0)%Z) →
  s !! n = Some rbrace →
  depthFrom bc (take (S n) s) = 0%Z →
  (∀ j, j < n → s !! j = Some rbrace → depthFrom bc (take (S j) s) ≠ 0%Z) →
  scanBytes s i bc ib = Some (i + n + 1).
Proof.
  revert i bc ib n. induction s as [|c s IH]; intros i bc ib n Hinv Hn Hd Hfirst; [done|].
  destruct n as [|n].
  - simpl in Hn. injection Hn as ->. simpl in Hd. unfold depthFrom in Hd. simpl in Hd.
    simpl. assert ((bc - 1 =? 0)%Z = true) as -> by lia.
    destruct ib; [simpl; f_equal; lia|]. specialize (Hinv eq_refl). lia.
  - simpl in Hn. rewrite firstn_cons, depthFrom_cons in Hd.
    assert (Hfirst' : ∀ j, j < n → s !! j = Some rbrace →
      depthFrom (if chr lbrace c then bc + 1 else if chr rbrace c then bc - 1 else bc)%Z
        (take (S j) s) ≠ 0%Z).
    { intros j Hj Hsj. specialize (Hfirst (S j) ltac:(lia) Hsj).
      by rewrite firstn_cons, depthFrom_cons in Hfirst. }
    cbn [scanBytes]. destruct (chr lbrace c) eqn:El.
    + rewrite (IH (S i) _ true n); [f_equal; lia|done|done|done|done].
    + destruct (chr rbrace c) eqn:Er.
      * apply chr_true in Er as <-.
        specialize (Hfirst 0 ltac:(lia) eq_refl). unfold depthFrom in Hfirst. simpl in Hfirst.
        assert ((bc - 1 =? 0)%Z = false) as -> by lia. simpl.
        rewrite (IH (S i) _ ib n); [f_equal; lia| |done|done|done].
        intros E. specialize (Hinv E). lia.
      * rewrite (IH (S i) _ ib n); [f_equal; lia|done|done|done|done].
Qed.

Lemma scanBytes_none (s : gostring) (i : nat) (bc : Z) (ib : bool) :
  (∀ j, s !! j = Some rbrace → depthFrom bc (take (S j) s) ≠ 0%Z) →
  scanBytes s i bc ib = None.
Proof.
  revert i bc ib. induction s as [|c s IH]; intros i bc ib H; [done|].
  assert (H' : ∀ j, s !! j = Some rbrace →
      depthFrom (if chr lbrace c then bc + 1 else if chr rbrace c then bc - 1 else bc)%Z
        (take (S j) s) ≠ 0%Z).
  { intros j Hsj. specialize (H (S j) Hsj).
    by rewrite firstn_cons, depthFrom_cons in H. }
  cbn [scanBytes]. destruct (chr lbrace c) eqn:El; [by apply IH|].
  destruct (chr rbrace c) eqn:Er; [|by apply IH].
  apply chr_true in Er as <-.
  specialize (H 0 eq_refl). unfold depthFrom in H. simpl in H.
  assert ((bc - 1 =? 0)%Z = false) as -> by lia. simpl. by apply IH.
Qed.

Lemma closesAt_none (s : gostring) (n : nat) :
  forallb (λ j, negb (closesAt s j)) (seq 0 n) = true →
  ∀ j, j < n → s !! j = Some rbrace → braceDepth (take (S j) s) ≠ 0%Z.
Proof.
  intros H j Hj Hs Hd. rewrite forallb_forall in H.
  specialize (H j). rewrite in_seq in H. specialize (H ltac:(lia)).
  unfold closesAt in H. rewrite bool_decide_eq_true_2, Hd in H by done. done.
Qed.

(** C1.  When the closing brace at offset [i] is the first one at which the
    brace-depth counter is back at zero, extractProviderBlock returns the text
    from its start through that brace, however deep the braces before it
    nest: an inner closing brace leaves the counter above zero and does not
    end the block. *)
Theorem extractProviderBlock_closing_brace (content : gostring) (i : nat) :
  content !! i = Some rbrace →
  braceDepth (take (S i) content) = 0%Z →
  (∀ j, j < i → content !! j = Some rbrace → braceDepth (take (S j) content) ≠ 0%Z) →
  extractProviderBlock content = take (S i) content.
Proof.
  intros Hi Hd Hfirst. rewrite extractProviderBlock_bytes.
  rewrite (scanBytes_found content 0 0 false i); [|done..].
  f_equal. lia.
Qed.

(** C9.  When no closing brace brings the brace-depth counter back to zero
    (no brace at all, or braces that never balance), extractProviderBlock
    returns the whole text. *)
Theorem extractProviderBlock_unbalanced (content : gostring) :
  (∀ j, content !! j = Some rbrace → braceDepth (take (S j) content) ≠ 0%Z) →
  extractProviderBlock content = content.
Proof.
  intros H. rewrite extractProviderBlock_bytes. by rewrite scanBytes_none.
Qed.

(** ** The matching engine *)

Lemma in_allBytes (c : ascii) : In c allBytes.
Proof.
  unfold allBytes. rewrite <- (ascii_nat_embedding c).
  apply in_map, in_seq. pose proof (nat_ascii_bounded c). lia.
Qed.

Lemma excludes_spec (p : ascii → bool) (re : regex) (c : ascii) :
  excludes p re = true → p c = true → firstRejects re c = true.
Proof.
  unfold excludes. rewrite forallb_forall. intros H Hp.
  specialize (H c (in_allBytes c)). by rewrite Hp in H.
Qed.

Lemma lastOr_nil prev : lastOr prev [] = prev.
Proof. done. Qed.

Lemma lastOr_cons prev c u : lastOr prev (c :: u) = lastOr (Some c) u.
Proof.
  unfold lastOr. destruct u as [|a u]; [done|].
  change (last (c :: a :: u)) with (last (a :: u)).
  destruct (last (a :: u)) eqn:E; [done|]. by apply last_None in E.
Qed.

Lemma lastOr_app prev u v : lastOr prev (u ++ v) = lastOr (lastOr prev u) v.
Proof.
  revert prev. induction u as [|c u IH]; intros prev; [done|].
  by rewrite <- app_comm_cons, !lastOr_cons, IH.
Qed.

Lemma firstRejects_exec (re : regex) (c : ascii) prev pos s cap :
  firstRejects re c = true → exec re prev pos (c :: s) cap = None.
Proof.
  revert prev pos cap. induction re as [|a re IH]; intros prev pos cap H; [done|].
  destruct a; simpl in *.
  - by destruct (p c).
  - destruct (p c); [done|]. by apply IH.
  - by destruct (p c).
  - destruct (p c); [done|]. by apply IH.
  - destruct (atLineStart prev); [by apply IH|done].
  - by apply IH.
  - by apply IH.
Qed.

Lemma greedy_max {R : Type} (p : ascii → bool)
    (k : option ascii → nat → gostring → option R) prev pos s :
  (∀ c s' prev pos, p c = true → k prev pos (c :: s') = None) →
  greedy p k prev pos s
  = k (lastOr prev (takew p s)) (pos + length (takew p s)) (dropw p s).
Proof.
  intros Hk. revert prev pos. induction s as [|c s IH]; intros prev pos.
  - simpl. by rewrite Nat.add_0_r.
  - simpl. destruct (p c) eqn:Hp.
    + rewrite IH, lastOr_cons. simpl. rewrite Nat.add_succ_r.
      destruct (k _ _ _); [done|]. by apply Hk.
    + simpl. by rewrite Nat.add_0_r.
Qed.

Lemma exec_run (re : regex) prev pos s cap :
  detb re = true → exec re prev pos s cap = run re prev pos s cap.
Proof.
  revert prev pos s cap. induction re as [|a re IH]; intros prev pos s cap D; [done|].
  destruct a; simpl in D |- *; try apply andb_prop in D as [E D].
  - destruct s as [|c s]; [done|]. destruct (p c); [by apply IH|done].
  - rewrite greedy_max.
    + by apply IH.
    + intros c s' prev' pos' Hp. apply firstRejects_exec. by apply (excludes_spec p).
  - destruct s as [|c s]; [done|]. destruct (p c); [|done].
    rewrite greedy_max.
    + by apply IH.
    + intros c' s' prev' pos' Hp. apply firstRejects_exec. by apply (excludes_spec p).
  - destruct s as [|c s]; [by apply IH|]. destruct (p c) eqn:Hp; [|by apply IH].
    rewrite IH by done. destruct (run re _ _ _ _); [done|].
    apply firstRejects_exec. by apply (excludes_spec p).
  - destruct (atLineStart prev); [by apply IH|done].
  - by apply IH.
  - by apply IH.
Qed.

Lemma detb_tagPattern : detb tagPattern = true.
Proof. reflexivity. Qed.
Lemma detb_providerRegex : detb providerRegex = true.
Proof. reflexivity. Qed.
Lemma detb_aliasRegex : detb aliasRegex = true.
Proof. reflexivity. Qed.
Lemma detb_tagsRegex : detb tagsRegex = true.
Proof. reflexivity. Qed.

(** ** findMissingTags *)

Lemma tagMap_lookup (foundTags : list gostring) (m : gmap gostring bool) (r : gostring) :
  foldl (λ tagMap tag, <[tag := true]> tagMap) m foundTags !! r
  = if decide (r ∈ foundTags) then Some true else m !! r.
Proof.
  revert m. induction foundTags as [|t l IH]; intros m; cbn [foldl].
  - rewrite decide_False; [done|apply not_elem_of_nil].
  - rewrite IH. destruct (decide (r ∈ l)) as [Hl|Hl].
    + rewrite decide_True; [done|by right].
    + destruct (decide (t = r)) as [->|Hne].
      * rewrite lookup_insert_eq. rewrite decide_True; [done|by left].
      * rewrite lookup_insert_ne by done.
        rewrite decide_False; [done|]. by intros [->|?]%elem_of_cons.
Qed.

Lemma foldl_append_if {A : Type} (P : A → bool) (acc l : list A) :
  foldl (λ acc x, if P x then acc ++ [x] else acc) acc l
  = acc ++ filter (λ x, P x = true) l.
Proof.
  revert acc. induction l as [|x l IH]; intros acc.
  - simpl. by rewrite app_nil_r.
  - cbn [foldl]. rewrite IH, filter_cons. destruct (P x) eqn:E.
    + rewrite decide_True by done. by rewrite <- app_assoc.
    + by rewrite decide_False.
Qed.

Lemma findMissingTags_filter (foundTags : list gostring) :
  findMissingTags foundTags = filter (λ r, r ∉ foundTags) requiredTags.
Proof.
  unfold findMissingTags. rewrite foldl_append_if. simpl.
  apply list_filter_iff. intros r. rewrite tagMap_lookup, lookup_empty.
  case_decide; simpl; naive_solver.
Qed.

(** C4.  findMissingTags returns the required tags that are not among the
    found tags, in the order of the list of the eight required tags; a tag
    is found when the very same byte string is in the list. *)
Theorem findMissingTags_spec (foundTags : list gostring) :
  findMissingTags foundTags =
  filter (λ r, r ∉ foundTags)
    [ str "business-unit"; str "application"; str "is-production"; str "owner";
      str "namespace"; str "service-area"; str "source-code"; str "slack-channel" ].
Proof. apply findMissingTags_filter. Qed.

Lemma findMissingTags_nil (foundTags : list gostring) :
  findMissingTags foundTags = [] → ∀ r, r ∈ requiredTags → r ∈ foundTags.
Proof.
  rewrite findMissingTags_filter. intros H r Hr.
  destruct (decide (r ∈ foundTags)) as [|Hn]; [done|].
  assert (r ∈ filter (λ r, r ∉ foundTags) requiredTags) as Hin
    by by apply list_elem_of_filter.
  rewrite H in Hin. by apply elem_of_nil in Hin.
Qed.

(** ** joinErrors *)

Lemma joinErrors_foldl (errors : list gostring) (i : nat) (result : gostring) :
  foldl (λ '(i, result) err,
           (S i, (if 0 <? i then result ++ [newline] else result) ++ err))
        (S i, result) errors
  = (S i + length errors, result ++ concat ((λ e, newline :: e) <$> errors)).
Proof.
  revert i result. induction errors as [|e l IH]; intros i result; simpl.
  - by rewrite Nat.add_0_r, app_nil_r.
  - rewrite IH. f_equal; [lia|]. by rewrite <- !app_assoc.
Qed.

Lemma joinErrors_cons (e : gostring) (errors : list gostring) :
  joinErrors (e :: errors) = e ++ concat ((λ e, newline :: e) <$> errors).
Proof. unfold joinErrors. simpl. by rewrite joinErrors_foldl. Qed.

(** The text of joinErrors: the messages in their order, with a newline
    between two of them. *)
Lemma joinErrors_stringsJoin (errors : list gostring) :
  joinErrors errors = stringsJoin errors [newline].
Proof.
  destruct errors as [|e errors]; [done|]. rewrite joinErrors_cons.
  revert e. induction errors as [|e' errors IH]; intros e.
  - simpl. by rewrite app_nil_r.
  - cbn [fmap list_fmap concat]. rewrite <- app_comm_cons, IH. done.
Qed.

Lemma stringsJoin_elem (msg sep : gostring) (errors : list gostring) :
  msg ∈ errors → ∃ pre post, stringsJoin errors sep = pre ++ msg ++ post.
Proof.
  induction errors as [|e errors IH]; intros H; [by apply elem_of_nil in H|].
  apply elem_of_cons in H as [->|H].
  - destruct errors as [|e' errors].
    + exists [], []. simpl. by rewrite app_nil_r.
    + exists [], (sep ++ stringsJoin (e' :: errors) sep). done.
  - destruct (IH H) as (pre & post & E). destruct errors as [|e' errors];
      [by apply elem_of_nil in H|].
    exists (e ++ sep ++ pre), post.
    change (stringsJoin (e :: e' :: errors) sep)
      with (e ++ sep ++ stringsJoin (e' :: errors) sep).
    by rewrite E, <- !app_assoc.
Qed.

(** ** The loop of checkAllAwsProviders *)

Lemma checkProvider_step (content : gostring) ps es loc :
  checkProvider content (ps, es) loc
  = (ps ++ option_list (providerRecord content loc),
     es ++ option_list (providerError content loc)).
Proof.
  unfold checkProvider, providerRecord, providerError, hasTagsMap, tagsOf,
    providerNameOf, blockOf.
  destruct (1 <? length (FindStringSubmatch tagsRegex _)); simpl.
  - destruct (findMissingTags _); simpl; by rewrite ?app_nil_r.
  - by rewrite app_nil_r.
Qed.

Lemma checkProvider_foldl (content : gostring) ps es (lines : list (nat * nat)) :
  foldl (checkProvider content) (ps, es) lines
  = (ps ++ omap (providerRecord content) lines,
     es ++ omap (providerError content) lines).
Proof.
  revert ps es. induction lines as [|loc l IH]; intros ps es.
  - simpl. by rewrite !app_nil_r.
  - cbn [foldl]. rewrite checkProvider_step, IH, <- !app_assoc.
    change (omap ?f (loc :: l)) with
      (match f loc with Some y => y :: omap f l | None => omap f l end).
    by destruct (providerRecord content loc), (providerError content loc).
Qed.

Lemma checkAllAwsProviders_unfold (content : gostring) :
  checkAllAwsProviders content =
  let lines := FindAllStringIndex providerRegex content in
  match lines with
  | [] => ([], Some noProvidersMessage)
  | _ =>
    match omap (providerError content) lines with
    | [] => (omap (providerRecord content) lines, None)
    | errors => ([], Some (joinErrors errors))
    end
  end.
Proof.
  unfold checkAllAwsProviders. rewrite checkProvider_foldl.
  cbv zeta. rewrite !app_nil_l.
  destruct (FindAllStringIndex providerRegex content) as [|loc l]; [done|].
  change (length (loc :: l) =? 0) with false. cbv iota.
  by destruct (omap (providerError content) (loc :: l)).
Qed.

(** ** Searching *)

Lemma takew_dropw (p : ascii → bool) (s : gostring) : takew p s ++ dropw p s = s.
Proof. induction s as [|c s IH]; [done|]. simpl. destruct (p c); [by rewrite <- IH at 3|done]. Qed.

Lemma Forall_takew (p : ascii → bool) (s : gostring) : Forall (λ c, p c = true) (takew p s).
Proof.
  induction s as [|c s IH]; [constructor|]. simpl.
  destruct (p c) eqn:E; by constructor.
Qed.

Lemma takew_app (p : ascii → bool) (u x : gostring) :
  Forall (λ c, p c = true) u → takew p (u ++ x) = u ++ takew p x.
Proof. induction 1 as [|c u Hc _ IH]; [done|]. simpl. by rewrite Hc, IH. Qed.

Lemma dropw_app (p : ascii → bool) (u x : gostring) :
  Forall (λ c, p c = true) u → dropw p (u ++ x) = dropw p x.
Proof. induction 1 as [|c u Hc _ IH]; [done|]. simpl. by rewrite Hc, IH. Qed.

Lemma search_None (re : regex) prev pos (s : gostring) :
  search re prev pos s = None ↔
  ∀ k, k ≤ length s →
    exec re (lastOr prev (take k s)) (pos + k) (drop k s) noCap = None.
Proof.
  revert prev pos. induction s as [|c s IH]; intros prev pos; cbn [search].
  - split.
    + intros H k Hk. assert (k = 0) as -> by (simpl in Hk; lia).
      cbn [take drop]. rewrite lastOr_nil, Nat.add_0_r.
      by destruct (exec re prev pos [] noCap) as [[]|].
    + intros H. specialize (H 0 ltac:(lia)). cbn [take drop] in H.
      rewrite lastOr_nil, Nat.add_0_r in H. by rewrite H.
  - split.
    + intros H k Hk. destruct (exec re prev pos (c :: s) noCap) as [[]|] eqn:E; [done|].
      destruct k as [|k].
      * cbn [take drop]. by rewrite lastOr_nil, Nat.add_0_r.
      * cbn [take drop]. rewrite lastOr_cons, Nat.add_succ_r.
        apply (proj1 (IH (Some c) (S pos)) H k). simpl in Hk. lia.
    + intros H. pose proof (H 0 ltac:(lia)) as H0. cbn [take drop] in H0.
      rewrite lastOr_nil, Nat.add_0_r in H0. rewrite H0.
      apply IH. intros k Hk. specialize (H (S k) ltac:(simpl; lia)).
      cbn [take drop] in H. by rewrite lastOr_cons, Nat.add_succ_r in H.
Qed.

Lemma search_Some (re : regex) prev pos (s : gostring) a e cap :
  search re prev pos s = Some (a, e, cap) →
  ∃ k, a = pos + k ∧ k ≤ length s
    ∧ exec re (lastOr prev (take k s)) a (drop k s) noCap = Some (e, cap)
    ∧ ∀ j, j < k →
        exec re (lastOr prev (take j s)) (pos + j) (drop j s) noCap = None.
Proof.
  revert prev pos. induction s as [|c s IH]; intros prev pos; cbn [search].
  - destruct (exec re prev pos [] noCap) as [[e' cap']|] eqn:E; [|done].
    intros [= <- <- <-]. exists 0. rewrite Nat.add_0_r. split_and!; [done..|lia].
  - destruct (exec re prev pos (c :: s) noCap) as [[e' cap']|] eqn:E.
    + intros [= <- <- <-]. exists 0. rewrite Nat.add_0_r.
      split_and!; [done|simpl; lia|done|lia].
    + intros H. apply IH in H as (k & -> & Hk & H & Hj). exists (S k).
      cbn [take drop]. rewrite lastOr_cons, Nat.add_succ_r.
      split_and!; [done|simpl; lia|done|].
      intros [|j] Hlt.
      * cbn [take drop]. by rewrite lastOr_nil, Nat.add_0_r.
      * cbn [take drop]. rewrite lastOr_cons, Nat.add_succ_r. apply Hj. lia.
Qed.

Lemma findAll_nil (re : regex) prev pos (s : gostring) :
  findAll re prev pos s 0 = [] ↔ search re prev pos s = None.
Proof.
  revert prev pos. induction s as [|c s IH]; intros prev pos; cbn [findAll search].
  - by destruct (exec re prev pos [] noCap) as [[]|].
  - destruct (exec re prev pos (c :: s) noCap) as [[]|]; [done|]. apply IH.
Qed.

Lemma FindAllStringIndex_nil (re : regex) (s : gostring) :
  FindAllStringIndex re s = [] ↔ search re None 0 s = None.
Proof.
  unfold FindAllStringIndex. rewrite <- findAll_nil.
  split; [apply fmap_nil_inv|by intros ->].
Qed.

(** ** The provider pattern *)

Lemma chr_refl (c : ascii) : chr c c = true.
Proof. apply Ascii.eqb_refl. Qed.

Lemma run_lit_app (w : gostring) (re : regex) prev pos (s : gostring) cap :
  run (lit w ++ re) prev pos (w ++ s) cap
  = run re (lastOr prev w) (pos + length w) s cap.
Proof.
  revert prev pos. induction w as [|c w IH]; intros prev pos.
  - simpl. by rewrite Nat.add_0_r.
  - simpl. rewrite chr_refl, IH, lastOr_cons. by rewrite Nat.add_succ_r.
Qed.

Lemma run_lit_inv (w : gostring) (re : regex) prev pos (s : gostring) cap r :
  run (lit w ++ re) prev pos s cap = Some r →
  ∃ s', s = w ++ s' ∧ run re (lastOr prev w) (pos + length w) s' cap = Some r.
Proof.
  revert prev pos s. induction w as [|c w IH]; intros prev pos s H.
  - exists s. simpl. by rewrite Nat.add_0_r.
  - simpl in H. destruct s as [|d s]; [done|].
    destruct (chr c d) eqn:E; [|done]. apply chr_true in E as <-.
    apply IH in H as (s' & -> & H). exists s'. split; [done|].
    rewrite lastOr_cons. simpl. by rewrite Nat.add_succ_r.
Qed.

Lemma providerRegex_sound prev pos (s : gostring) r :
  exec providerRegex prev pos s noCap = Some r →
  ∃ ws post, s = str "provider" ++ ws ++ [dq] ++ str "aws" ++ [dq] ++ post
    ∧ ws ≠ [] ∧ Forall (λ c, space c = true) ws.
Proof.
  rewrite exec_run by reflexivity. unfold providerRegex. intros H.
  apply run_lit_inv in H as (s1 & -> & H).
  cbn [app run] in H.
  destruct s1 as [|c s1]; [done|]. destruct (space c) eqn:Hc; [|done].
  destruct (dropw space s1) as [|d s2] eqn:Hd; [done|].
  destruct (chr dq d) eqn:Ed; [|done]. apply chr_true in Ed as <-.
  apply run_lit_inv in H as (s3 & -> & H).
  cbn [app run] in H.
  destruct s3 as [|e post]; [done|].
  destruct (chr dq e) eqn:Ee; [|done]. apply chr_true in Ee as <-.
  exists (c :: takew space s1), post. split_and!.
  - rewrite <- (takew_dropw space s1) at 1. rewrite Hd.
    done.
  - done.
  - constructor; [done|apply Forall_takew].
Qed.

Lemma providerRegex_complete prev pos (ws post : gostring) :
  ws ≠ [] → Forall (λ c, space c = true) ws →
  is_Some (exec providerRegex prev pos
             (str "provider" ++ ws ++ [dq] ++ str "aws" ++ [dq] ++ post) noCap).
Proof.
  intros Hne Hws. rewrite exec_run by reflexivity. unfold providerRegex.
  rewrite run_lit_app. cbn [app run].
  destruct Hws as [|c ws Hc Hws]; [done|].
  rewrite <- app_comm_cons, Hc.
  rewrite takew_app, dropw_app by done.
  change (dropw space (dq :: ?x)) with (dq :: x).
  change (chr dq dq) with true. cbv iota.
  rewrite (run_lit_app (str "aws") [One (chr dq)]).
  simpl. eauto.
Qed.

Lemma providerOccurrence_found (content : gostring) :
  FindAllStringIndex providerRegex content ≠ [] ↔ providerOccurrence content.
Proof.
  rewrite FindAllStringIndex_nil. split.
  - intros H. destruct (search providerRegex None 0 content) as [[[a e] cap]|] eqn:E; [|done].
    apply search_Some in E as (k & _ & Hk & E & _).
    apply providerRegex_sound in E as (ws & post & E & Hne & Hws).
    exists (take k content), ws, post. split_and!; [|done..].
    by rewrite <- E, take_drop.
  - intros (pre & ws & post & -> & Hne & Hws) H.
    rewrite search_None in H. specialize (H (length pre)).
    rewrite drop_app_length in H.
    destruct (providerRegex_complete (lastOr None (take (length pre) (pre ++
      str "provider" ++ ws ++ [dq] ++ str "aws" ++ [dq] ++ post))) (0 + length pre) ws post Hne Hws)
      as [r Hr].
    rewrite H in Hr; [done|]. rewrite length_app. lia.
Qed.

(** ** The outcome of the scan *)

Lemma FindStringSubmatch_length (re : regex) (s : gostring) :
  FindStringSubmatch re s = [] ∨ length (FindStringSubmatch re s) = 2.
Proof.
  unfold FindStringSubmatch. destruct (search re None 0 s) as [[[a e] cap]|]; auto.
Qed.

Lemma hasTagsMap_false (block : gostring) :
  hasTagsMap block = false ↔ FindStringSubmatch tagsRegex block = [].
Proof.
  unfold hasTagsMap.
  destruct (FindStringSubmatch_length tagsRegex block) as [E|E]; rewrite E; [done|].
  split; [done|]. intros E'. by rewrite E' in E.
Qed.

Lemma providerError_no_tags (content : gostring) (loc : nat * nat) :
  FindStringSubmatch tagsRegex (blockOf content loc) = [] →
  providerError content loc
  = Some (noDefaultTagsMessage (providerNameOf (blockOf content loc)))
  ∧ providerRecord content loc = None.
Proof.
  intros H. apply hasTagsMap_false in H. unfold providerError, providerRecord.
  by rewrite H.
Qed.

Lemma providerError_None (content : gostring) (loc : nat * nat) :
  providerError content loc = None →
  ∃ p, providerRecord content loc = Some p ∧ compliant p.
Proof.
  unfold providerError, providerRecord.
  destruct (hasTagsMap _); [|done].
  destruct (findMissingTags _) eqn:E; [|done]. intros _.
  eexists. split; [done|]. split; [done|]. by apply findMissingTags_nil.
Qed.

Lemma no_errors_compliant (content : gostring) (lines : list (nat * nat)) :
  omap (providerError content) lines = [] →
  Forall compliant (omap (providerRecord content) lines)
  ∧ length (omap (providerRecord content) lines) = length lines.
Proof.
  induction lines as [|loc l IH]; [by split; [constructor|]|].
  change (omap ?f (loc :: l)) with
    (match f loc with Some y => y :: omap f l | None => omap f l end).
  destruct (providerError content loc) eqn:E; [done|]. intros H.
  apply providerError_None in E as (p & -> & Hp). destruct (IH H) as [IH1 IH2].
  split; [by constructor|]. simpl. by rewrite IH2.
Qed.

(** C7.  When checkAllAwsProviders returns records and no error, each
    record has no missing tag: its tag list holds all eight required tags. *)
Theorem checkAllAwsProviders_success_compliant (content : gostring)
    (providers : list providerInfo) :
  checkAllAwsProviders content = (providers, None) → Forall compliant providers.
Proof.
  rewrite checkAllAwsProviders_unfold. cbv zeta.
  destruct (FindAllStringIndex providerRegex content) as [|loc l]; [done|].
  destruct (omap (providerError content) (loc :: l)) eqn:E; [|done].
  intros [= <-]. exact (proj1 (no_errors_compliant content (loc :: l) E)).
Qed.

(** C6.  A text without any occurrence of the provider pattern makes
    checkAllAwsProviders fail with the no-providers error and no record. *)
Theorem checkAllAwsProviders_no_provider (content : gostring) :
  ¬ providerOccurrence content →
  checkAllAwsProviders content = ([], Some noProvidersMessage).
Proof.
  intros H. rewrite checkAllAwsProviders_unfold. cbv zeta.
  destruct (FindAllStringIndex providerRegex content) eqn:E; [done|].
  destruct H. apply providerOccurrence_found. by rewrite E.
Qed.

Lemma scan_fails_with (content : gostring) (loc : nat * nat) (msg : gostring) :
  loc ∈ FindAllStringIndex providerRegex content →
  providerError content loc = Some msg →
  checkAllAwsProviders content
  = ([], Some (joinErrors (omap (providerError content)
                             (FindAllStringIndex providerRegex content))))
  ∧ msg ∈ omap (providerError content) (FindAllStringIndex providerRegex content).
Proof.
  intros Hloc Hmsg.
  assert (Hin : msg ∈ omap (providerError content)
                        (FindAllStringIndex providerRegex content))
    by (apply list_elem_of_omap; eauto).
  split; [|done]. rewrite checkAllAwsProviders_unfold. cbv zeta.
  destruct (FindAllStringIndex providerRegex content) as [|l0 l];
    [by apply elem_of_nil in Hloc|].
  destruct (omap (providerError content) (l0 :: l)); [|done].
  by apply elem_of_nil in Hin.
Qed.

(** C8.  On a text with a provider occurrence every occurrence found is
    checked before anything is reported: when some provider is not compliant
    the error is the text of the messages of all the non-compliant
    providers, one each, in their order in the text and with a newline
    between two of them, so that the message of every non-compliant
    provider stands in the error; a compliant provider adds nothing and
    stops nothing. *)
Theorem checkAllAwsProviders_reports_all (content : gostring) :
  providerOccurrence content →
  let lines := FindAllStringIndex providerRegex content in
  let errors := omap (providerError content) lines in
  errors ≠ [] →
  lines ≠ []
  ∧ checkAllAwsProviders content = ([], Some (stringsJoin errors [newline]))
  ∧ (∀ loc msg, loc ∈ lines → providerError content loc = Some msg →
       msg ∈ errors
       ∧ ∃ pre post, stringsJoin errors [newline] = pre ++ msg ++ post)
  ∧ length errors ≤ length lines.
Proof.
  intros H lines errors Herr. apply providerOccurrence_found in H.
  split_and!; [done| | |].
  - rewrite checkAllAwsProviders_unfold. cbv zeta. fold lines. fold errors.
    rewrite <- joinErrors_stringsJoin.
    destruct lines; [done|]. by destruct errors.
  - intros loc msg Hloc Hmsg.
    assert (Hin : msg ∈ errors) by (apply list_elem_of_omap; eauto).
    split; [done|]. by apply stringsJoin_elem.
  - unfold errors. generalize lines. intros l. induction l as [|x l IH]; [done|].
    change (omap ?f (x :: l)) with
      (match f x with Some y => y :: omap f l | None => omap f l end).
    destruct (providerError content x); simpl; lia.
Qed.

Lemma messages_differ (providerName : gostring) (missing : list gostring) :
  noDefaultTagsMessage providerName ≠ missingTagsMessage providerName missing.
Proof.
  unfold noDefaultTagsMessage, missingTagsMessage. intros E.
  by do 2 apply app_inv_head in E.
Qed.

(** C5.  A provider occurrence in whose block the default_tags pattern with
    its nested tags map is not found gets no record and is reported as not
    having a default_tags block with all required tags: the scan fails and
    the text of its error holds that message for the provider.  The message
    names no tag: it is not the message that lists missing tags, whatever
    the tags listed. *)
Theorem checkAllAwsProviders_no_default_tags (content : gostring) (loc : nat * nat) :
  loc ∈ FindAllStringIndex providerRegex content →
  FindStringSubmatch tagsRegex (blockOf content loc) = [] →
  let providerName := providerNameOf (blockOf content loc) in
  providerRecord content loc = None
  ∧ providerError content loc = Some (noDefaultTagsMessage providerName)
  ∧ (∀ missing, noDefaultTagsMessage providerName
                ≠ missingTagsMessage providerName missing)
  ∧ ∃ err pre post,
      checkAllAwsProviders content = ([], Some err)
      ∧ err = pre ++ noDefaultTagsMessage providerName ++ post.
Proof.
  intros Hloc Hno providerName.
  apply (providerError_no_tags content) in Hno as [Herr Hrec].
  split_and!; [done|done|apply messages_differ|].
  destruct (scan_fails_with content loc _ Hloc Herr) as [Hc Hin].
  destruct (stringsJoin_elem _ [newline] _ Hin) as (pre & post & E).
  eexists _, pre, post. split; [exact Hc|]. by rewrite joinErrors_stringsJoin.
Qed.

(** ** The empty tags map *)

Lemma takew_nil_dropw (p : ascii → bool) (x : gostring) : takew p x = [] → dropw p x = x.
Proof. destruct x as [|c x]; [done|]. simpl. by destruct (p c). Qed.

Lemma run_Star_app (p : ascii → bool) (re : regex) prev pos (u x : gostring) cap :
  Forall (λ c, p c = true) u → takew p x = [] →
  run (Star p :: re) prev pos (u ++ x) cap = run re (lastOr prev u) (pos + length u) x cap.
Proof.
  intros Hu Hx. cbn [run]. rewrite takew_app, dropw_app by done.
  by rewrite Hx, app_nil_r, takew_nil_dropw.
Qed.

Lemma occurrences_spec (w s s' : gostring) (k : nat) :
  k ≤ length s → drop k s = w ++ s' → k ∈ occurrences w s.
Proof.
  intros Hk E. unfold occurrences. apply list_elem_of_filter. split.
  - unfold occursAt. apply bool_decide_eq_true. by rewrite E, take_app_length.
  - apply elem_of_seq. lia.
Qed.

Lemma run_One (p : ascii → bool) (re : regex) prev pos c (s : gostring) cap :
  p c = true → run (One p :: re) prev pos (c :: s) cap = run re (Some c) (S pos) s cap.
Proof. intros H. simpl. by rewrite H. Qed.

Lemma tagsRegex_empty_map prev pos (ws1 ws2 ws3 ws4 post : gostring) :
  blank ws1 → blank ws2 → blank ws3 → blank ws4 →
  exec tagsRegex prev pos (emptyTagsMap ws1 ws2 ws3 ws4 ++ post) noCap = None.
Proof.
  intros H1 H2 H3 H4. rewrite exec_run by reflexivity.
  unfold tagsRegex, emptyTagsMap. rewrite <- !app_assoc.
  rewrite run_lit_app. cbn [app].
  rewrite run_Star_app by first [assumption | reflexivity].
  rewrite run_One by reflexivity.
  rewrite run_Star_app by first [assumption | reflexivity].
  rewrite (run_lit_app (str "tags")).
  rewrite run_Star_app by first [assumption | reflexivity].
  change (str "=") with ["="%char]. cbn [app].
  rewrite run_One by reflexivity.
  rewrite run_Star_app by first [assumption | reflexivity].
  rewrite run_One by reflexivity.
  reflexivity.
Qed.

Lemma tagsRegex_not_found (block pre ws1 ws2 ws3 ws4 post : gostring) :
  block = pre ++ emptyTagsMap ws1 ws2 ws3 ws4 ++ post →
  blank ws1 → blank ws2 → blank ws3 → blank ws4 →
  occurrences (str "default_tags") block = [length pre] →
  FindStringSubmatch tagsRegex block = [].
Proof.
  intros E H1 H2 H3 H4 Hocc. unfold FindStringSubmatch.
  assert (search tagsRegex None 0 block = None) as ->; [|done].
  apply search_None. intros k Hk.
  destruct (exec tagsRegex _ _ (drop k block) _) as [r|] eqn:Ex; [|done].
  exfalso. pose proof Ex as Ex'. rewrite exec_run in Ex' by reflexivity.
  unfold tagsRegex in Ex'. apply run_lit_inv in Ex' as (s' & Es & _).
  pose proof (occurrences_spec _ _ _ _ Hk Es) as Hin.
  rewrite Hocc in Hin. apply list_elem_of_singleton in Hin as ->.
  rewrite E, drop_app_length in Ex.
  by rewrite tagsRegex_empty_map in Ex.
Qed.

(** C10.  A provider whose block has one default_tags, with an empty tags
    map (the braces of the map next to each other), is treated as a provider
    without default_tags: tagsRegex needs a byte other than a closing brace
    between the braces and does not match, so the provider gets no record
    and the error holds for it the message of the missing default_tags
    block, not the message listing missing tags. *)
Theorem checkAllAwsProviders_empty_tags_map (content : gostring) (loc : nat * nat)
    (pre ws1 ws2 ws3 ws4 post : gostring) :
  loc ∈ FindAllStringIndex providerRegex content →
  blockOf content loc = pre ++ emptyTagsMap ws1 ws2 ws3 ws4 ++ post →
  blank ws1 → blank ws2 → blank ws3 → blank ws4 →
  occurrences (str "default_tags") (blockOf content loc) = [length pre] →
  FindStringSubmatch tagsRegex (blockOf content loc) = []
  ∧ providerRecord content loc = None
  ∧ providerError content loc
    = Some (noDefaultTagsMessage (providerNameOf (blockOf content loc)))
  ∧ providerError content loc
    ≠ Some (missingTagsMessage (providerNameOf (blockOf content loc)) requiredTags)
  ∧ ∃ errors,
      checkAllAwsProviders content = ([], Some (joinErrors errors))
      ∧ noDefaultTagsMessage (providerNameOf (blockOf content loc)) ∈ errors.
Proof.
  intros Hloc E H1 H2 H3 H4 Hocc.
  pose proof (tagsRegex_not_found _ _ _ _ _ _ _ E H1 H2 H3 H4 Hocc) as Hno.
  destruct (providerError_no_tags content loc Hno) as [Herr Hrec].
  split_and!; [done..| |].
  - rewrite Herr. intros Hm.
    apply (messages_differ (providerNameOf (blockOf content loc)) requiredTags).
    congruence.
  - eexists. by apply (scan_fails_with content loc).
Qed.

(** ** Offsets of a match *)

Lemma length_takew_dropw (p : ascii → bool) (s : gostring) :
  length (takew p s) + length (dropw p s) = length s.
Proof. by rewrite <- length_app, takew_dropw. Qed.

Lemma run_shift (k : nat) (re : regex) prev pos (s : gostring) cap :
  run re prev (k + pos) s (shiftCap k cap) = shiftThread k <$> run re prev pos s cap.
Proof.
  revert prev pos s cap. induction re as [|a re IH]; intros prev pos s cap; [done|].
  destruct a; cbn [run].
  - destruct s as [|c s]; [done|]. destruct (p c); [|done].
    by rewrite <- IH, Nat.add_succ_r.
  - by rewrite <- IH, Nat.add_assoc.
  - destruct s as [|c s]; [done|]. destruct (p c); [|done].
    rewrite <- IH. f_equal. lia.
  - destruct s as [|c s]; [apply IH|]. destruct (p c); [|apply IH].
    by rewrite <- IH, Nat.add_succ_r.
  - destruct (atLineStart prev); [apply IH|done].
  - rewrite <- IH. by destruct cap.
  - rewrite <- IH. by destruct cap.
Qed.

Lemma run_prev (re : regex) prev prev' pos (s : gostring) cap :
  anchored re = false → run re prev pos s cap = run re prev' pos s cap.
Proof.
  revert prev prev' pos s cap. induction re as [|a re IH]; intros prev prev' pos s cap H; [done|].
  destruct a; cbn [run]; simpl in H; try done.
  - destruct (takew p s) as [|c u] eqn:E.
    + rewrite !lastOr_nil. by apply IH.
    + by rewrite !lastOr_cons.
  - destruct s as [|c s]; [by apply IH|]. destruct (p c); by apply IH.
  - by apply IH.
  - by apply IH.
Qed.

Lemma run_bounds (re : regex) prev pos (s : gostring) cap e cap' :
  run re prev pos s cap = Some (e, cap') →
  pos ≤ e ≤ pos + length s
  ∧ (needs re = true → pos < e)
  ∧ ((∀ x, cap.2 = Some x → x ≤ pos + length s) →
     ∀ x, cap'.2 = Some x → x ≤ pos + length s).
Proof.
  revert prev pos s cap. induction re as [|a re IH]; intros prev pos s cap H.
  - injection H as <- <-. split_and!; [lia..|done|done].
  - destruct a; cbn [run] in H.
    + destruct s as [|c s]; [done|]. destruct (p c); [|done].
      apply IH in H as (H1 & H2 & H3). simpl. split_and!; [lia..| |].
      * intros _. lia.
      * intros Hc x Hx. assert (x ≤ S pos + length s); [|lia].
        apply H3; [|done]. intros y Hy. specialize (Hc y Hy). simpl in Hc. lia.
    + apply IH in H as (H1 & H2 & H3).
      pose proof (length_takew_dropw p s) as L.
      split_and!; [lia..| |].
      * intros Hn. specialize (H2 Hn). lia.
      * intros Hc x Hx.
        assert (x ≤ pos + length (takew p s) + length (dropw p s)); [|lia].
        apply H3; [|done]. intros y Hy. specialize (Hc y Hy). lia.
    + destruct s as [|c s]; [done|]. destruct (p c); [|done].
      apply IH in H as (H1 & H2 & H3).
      pose proof (length_takew_dropw p s) as L. simpl.
      split_and!; [lia..| |].
      * intros _. lia.
      * intros Hc x Hx.
        assert (x ≤ S pos + length (takew p s) + length (dropw p s)); [|lia].
        apply H3; [|done]. intros y Hy. specialize (Hc y Hy). simpl in Hc. lia.
    + assert (∀ c s', s = c :: s' → run re (Some c) (S pos) s' cap = Some (e, cap') →
        pos ≤ e ≤ pos + length s ∧ (needs (Quest p :: re) = true → pos < e) ∧
        ((∀ x, cap.2 = Some x → x ≤ pos + length s) →
          ∀ x, cap'.2 = Some x → x ≤ pos + length s)) as Htake.
      { intros c s' -> H'. apply IH in H' as (H1 & H2 & H3). simpl.
        split_and!; [lia..| |].
        - intros _. lia.
        - intros Hc x Hx. assert (x ≤ S pos + length s'); [|lia].
          apply H3; [|done]. intros y Hy. specialize (Hc y Hy). simpl in Hc. lia. }
      destruct s as [|c s]; [by apply IH in H|].
      destruct (p c); [by eapply Htake|by apply IH in H].
    + destruct (atLineStart prev); [|done]. by apply IH in H.
    + apply IH in H as (H1 & H2 & H3). split_and!; [lia..|done|].
      intros Hc. apply H3. by destruct cap.
    + apply IH in H as (H1 & H2 & H3). split_and!; [lia..|done|].
      intros _. apply H3. simpl. intros y [= <-]. lia.
Qed.

(** ** Successive matches *)

Lemma findAll_skip (re : regex) prev pos (s : gostring) (k : nat) :
  k ≤ length s →
  findAll re prev pos s k = findAll re (lastOr prev (take k s)) (pos + k) (drop k s) 0.
Proof.
  revert prev pos s. induction k as [|k IH]; intros prev pos s Hk.
  - by rewrite take_0, drop_0, lastOr_nil, Nat.add_0_r.
  - destruct s as [|c s]; [simpl in Hk; lia|]. cbn [findAll take drop].
    rewrite IH by (simpl in Hk; lia). by rewrite lastOr_cons, Nat.add_succ_r.
Qed.

Lemma findAll_resume (re : regex) prev pos (s : gostring) e cap :
  exec re prev pos s noCap = Some (e, cap) → pos < e ≤ pos + length s →
  findAll re prev pos s 0
  = (pos, e, cap) :: findAll re (lastOr prev (take (e - pos) s)) e (drop (e - pos) s) 0.
Proof.
  intros E He. destruct s as [|c s]; [simpl in He; lia|].
  cbn [findAll]. rewrite E. f_equal.
  remember (e - pos - 1) as k eqn:Ek.
  replace (e - pos) with (S k) by lia.
  rewrite findAll_skip by (simpl in He; lia). cbn [take drop].
  rewrite lastOr_cons. f_equal. lia.
Qed.

Lemma findAll_miss (re : regex) prev pos c (s : gostring) :
  exec re prev pos (c :: s) noCap = None →
  findAll re prev pos (c :: s) 0 = findAll re (Some c) (S pos) s 0.
Proof. intros E. cbn [findAll]. by rewrite E. Qed.

Lemma exec_Bol (re : regex) prev pos (s : gostring) cap :
  atLineStart prev = false → exec (Bol :: re) prev pos s cap = None.
Proof. intros H. cbn [exec]. by rewrite H. Qed.

Lemma atLineStart_Some (c : ascii) : atLineStart (Some c) = chr newline c.
Proof. done. Qed.

(** Inside a line an anchored pattern finds nothing: the search moves to
    the end of the line. *)
Lemma findAll_gap (re : regex) prev pos (u t : gostring) :
  atLineStart prev = false → Forall (λ c, chr newline c = false) u →
  findAll (Bol :: re) prev pos (u ++ t) 0
  = findAll (Bol :: re) (lastOr prev u) (pos + length u) t 0
  ∧ atLineStart (lastOr prev u) = false.
Proof.
  intros Hp Hu. revert prev pos Hp. induction Hu as [|c u Hc Hu IH]; intros prev pos Hp.
  - by rewrite lastOr_nil, Nat.add_0_r.
  - rewrite <- app_comm_cons, findAll_miss by by apply exec_Bol.
    rewrite lastOr_cons. destruct (IH (Some c) (S pos) Hc) as [-> ->].
    split; [|done]. f_equal. simpl. lia.
Qed.

Lemma findAll_gap_end (re : regex) prev pos (u : gostring) :
  atLineStart prev = false → Forall (λ c, chr newline c = false) u →
  findAll (Bol :: re) prev pos u 0 = [].
Proof.
  intros Hp Hu. rewrite <- (app_nil_r u).
  destruct (findAll_gap re prev pos u [] Hp Hu) as [-> H].
  cbn [findAll]. by rewrite exec_Bol.
Qed.

Lemma findAll_gap_break (re : regex) prev pos (u t : gostring) :
  atLineStart prev = false → Forall (λ c, chr newline c = false) u →
  findAll (Bol :: re) prev pos (u ++ newline :: t) 0
  = findAll (Bol :: re) (Some newline) (pos + length u + 1) t 0.
Proof.
  intros Hp Hu. destruct (findAll_gap re prev pos u (newline :: t) Hp Hu) as [-> H].
  rewrite findAll_miss by by apply exec_Bol. f_equal. lia.
Qed.

(** After a match that ends inside the first line, or a failure at its
    start, the search goes on at the start of the next line. *)
Lemma findAll_line (re : regex) prev pos (line t : gostring) :
  Forall (λ c, chr newline c = false) line →
  (∀ e cap, exec (Bol :: re) prev pos (line ++ newline :: t) noCap = Some (e, cap) →
     pos < e ≤ pos + length line) →
  findAll (Bol :: re) prev pos (line ++ newline :: t) 0
  = option_list ((λ r : thread, (pos, r.1, r.2)) <$>
                   exec (Bol :: re) prev pos (line ++ newline :: t) noCap)
    ++ findAll (Bol :: re) (Some newline) (pos + length line + 1) t 0.
Proof.
  intros Hl He.
  destruct (exec (Bol :: re) prev pos (line ++ newline :: t) noCap) as [[e cap]|] eqn:E.
  - specialize (He e cap eq_refl).
    rewrite (findAll_resume _ _ _ _ e cap E) by (rewrite length_app; lia).
    cbn [fmap option_fmap option_map option_list app fst snd]. f_equal.
    rewrite take_app_le, drop_app_le by lia.
    rewrite <- (take_drop (e - pos) line) in Hl at 1. apply Forall_app in Hl as [Hl1 Hl2].
    rewrite findAll_gap_break; [f_equal; rewrite length_drop; lia| |done].
    destruct (take (e - pos) line) as [|c u] eqn:Et.
    { apply (f_equal length) in Et. rewrite length_take in Et. simpl in Et. lia. }
    rewrite lastOr_cons.
    destruct (findAll_gap re (Some c) 0 u [] ) as [_ H]; [|by inversion Hl1|done].
    inversion Hl1; subst. by rewrite atLineStart_Some.
  - cbn [fmap option_fmap option_map option_list app].
    change (option_list None ++ ?x) with x.
    destruct line as [|c u].
    + cbn [app]. rewrite findAll_miss by done. f_equal. simpl. lia.
    + rewrite <- app_comm_cons in *. rewrite findAll_miss by done.
      inversion Hl; subst.
      rewrite findAll_gap_break; [f_equal; simpl; lia| |done].
      by rewrite atLineStart_Some.
Qed.

Lemma findAll_last_line (re : regex) prev pos (line : gostring) :
  Forall (λ c, chr newline c = false) line →
  (∀ e cap, exec (Bol :: re) prev pos line noCap = Some (e, cap) →
     pos < e ≤ pos + length line) →
  findAll (Bol :: re) prev pos line 0
  = option_list ((λ r : thread, (pos, r.1, r.2)) <$> exec (Bol :: re) prev pos line noCap).
Proof.
  intros Hl He.
  destruct (exec (Bol :: re) prev pos line noCap) as [[e cap]|] eqn:E.
  - specialize (He e cap eq_refl).
    rewrite (findAll_resume _ _ _ _ e cap E) by lia.
    cbn [fmap option_fmap option_map fst snd].
    change (option_list (Some ?x)) with [x]. f_equal.
    rewrite <- (take_drop (e - pos) line) in Hl at 1. apply Forall_app in Hl as [Hl1 Hl2].
    apply findAll_gap_end; [|done].
    destruct (take (e - pos) line) as [|c u] eqn:Et.
    { apply (f_equal length) in Et. rewrite length_take in Et. simpl in Et. lia. }
    rewrite lastOr_cons.
    destruct (findAll_gap re (Some c) 0 u [] ) as [_ H]; [|by inversion Hl1|done].
    inversion Hl1; subst. by rewrite atLineStart_Some.
  - cbn [fmap option_fmap option_map]. change (option_list None) with (@nil found).
    destruct line as [|c u].
    + cbn [findAll]. by rewrite E.
    + rewrite findAll_miss by done. inversion Hl; subst.
      apply findAll_gap_end; [|done]. by rewrite atLineStart_Some.
Qed.

(** ** A match that stays on its line *)

Lemma run_star_app (p : ascii → bool) (re : regex) (t : gostring) :
  (∀ prev pos l cap, run re prev pos (l ++ t) cap = run re prev pos l cap) →
  runFails (Star p :: re) t → runFails (Star p :: re) [] →
  ∀ l prev pos cap,
    run (Star p :: re) prev pos (l ++ t) cap = run (Star p :: re) prev pos l cap.
Proof.
  intros Hre Ht Hnil l. induction l as [|c l IH]; intros prev pos cap.
  - cbn [app]. by rewrite Ht, Hnil.
  - rewrite <- app_comm_cons. cbn [run takew dropw]. destruct (p c).
    + specialize (IH (Some c) (S pos) cap). cbn [run] in IH.
      rewrite !lastOr_cons. cbn [length]. rewrite !Nat.add_succ_r. exact IH.
    + rewrite app_comm_cons. apply Hre.
Qed.

Lemma run_app_deaf (re : regex) (t : gostring) :
  deaf re t →
  ∀ prev pos l cap, run re prev pos (l ++ t) cap = run re prev pos l cap.
Proof.
  induction re as [|a re IH]; intros D prev pos l cap; [done|].
  destruct D as [Da D]. specialize (IH D).
  destruct a.
  - destruct Da as [Ht Hnil]. destruct l as [|c l]; [by rewrite Ht, Hnil|].
    rewrite <- app_comm_cons. cbn [run]. destruct (p c); [apply IH|done].
  - destruct Da as [Ht Hnil]. by apply run_star_app.
  - destruct Da as (Ht & Hst & Hsnil). destruct l as [|c l]; [by rewrite Ht|].
    rewrite <- app_comm_cons. cbn [run]. destruct (p c); [|done].
    exact (run_star_app p re t IH Hst Hsnil l (Some c) (S pos) cap).
  - destruct Da as [Ht Hnil]. destruct l as [|c l]; [by rewrite Ht, Hnil|].
    rewrite <- app_comm_cons. cbn [run]. destruct (p c); [apply IH|].
    rewrite app_comm_cons. apply IH.
  - cbn [run]. destruct (atLineStart prev); [apply IH|done].
  - cbn [run]. apply IH.
  - cbn [run]. apply IH.
Qed.

Lemma dropw_head (p : ascii → bool) (s : gostring) c r : dropw p s = c :: r → p c = false.
Proof.
  induction s as [|d s IH]; [done|]. simpl. destruct (p d) eqn:E; [done|].
  by intros [= <- <-].
Qed.

Lemma tagKeyPattern_deaf (t : gostring) :
  equalsNext t = false → deaf tagKeyPattern (newline :: t).
Proof.
  intros H. unfold equalsNext in H. unfold tagKeyPattern, deaf, runFails.
  repeat split; try done; intros prev pos cap; simpl; try done;
    revert H; (destruct (dropw space t) as [|c x]; intros H; [done|by rewrite H]).
Qed.

Lemma exec_tagPattern prev pos (s : gostring) cap :
  exec tagPattern prev pos s cap
  = if atLineStart prev then run (Star space :: tagKeyPattern) prev pos s cap else None.
Proof. by rewrite exec_run. Qed.

(** A line with a byte that is not white space: the match does not reach
    past its end. *)
Lemma tagPattern_local prev pos (line t : gostring) c r cap :
  dropw space line = c :: r → equalsNext t = false →
  exec tagPattern prev pos (line ++ newline :: t) cap = exec tagPattern prev pos line cap.
Proof.
  intros Hd Ht. rewrite !exec_tagPattern. destruct (atLineStart prev); [|done].
  rewrite <- (takew_dropw space line), Hd, <- app_assoc.
  pose proof (Forall_takew space line) as Hw.
  assert (Hx : ∀ x, takew space ((c :: r) ++ x) = []).
  { intros x. simpl. by rewrite (dropw_head _ _ _ _ Hd). }
  rewrite run_Star_app by done.
  rewrite <- (app_nil_r (c :: r)) at 2. rewrite run_Star_app by done.
  rewrite app_nil_r. by apply run_app_deaf, tagKeyPattern_deaf.
Qed.

(** A line of white space only: the match starts as it does on the next
    line. *)
Lemma tagPattern_blank prev pos (line t : gostring) cap :
  atLineStart prev = true → dropw space line = [] →
  exec tagPattern prev pos (line ++ newline :: t) cap
  = exec tagPattern (Some newline) (pos + length line + 1) t cap.
Proof.
  intros Hp Hd. rewrite !exec_tagPattern, Hp. cbn [atLineStart].
  change (chr newline newline) with true. cbv iota.
  assert (Hl : Forall (λ c, space c = true) (line ++ [newline])).
  { apply Forall_app. split; [|by repeat constructor].
    rewrite <- (takew_dropw space line), Hd, app_nil_r. apply Forall_takew. }
  replace (line ++ newline :: t) with ((line ++ [newline]) ++ t) by by rewrite <- app_assoc.
  cbn [run]. rewrite !takew_app, !dropw_app by done.
  rewrite !lastOr_app, length_app, length_app. cbn [length].
  rewrite lastOr_cons, lastOr_nil. f_equal. lia.
Qed.

Lemma tagPattern_blank_line (line : gostring) :
  dropw space line = [] → lineKey line = None.
Proof.
  intros Hd. unfold lineKey. rewrite exec_tagPattern. cbn [atLineStart run].
  by rewrite Hd.
Qed.

Lemma tagPattern_bounds prev pos (s : gostring) e cap :
  exec tagPattern prev pos s noCap = Some (e, cap) →
  pos < e ≤ pos + length s ∧ ∀ x, cap.2 = Some x → x ≤ pos + length s.
Proof.
  rewrite exec_run by reflexivity. intros H.
  apply run_bounds in H as (H1 & H2 & H3). split_and!; [by apply H2|lia|].
  by apply H3.
Qed.

Lemma tagPattern_shift prev pos (s : gostring) :
  atLineStart prev = true →
  exec tagPattern prev pos s noCap = shiftThread pos <$> exec tagPattern None 0 s noCap.
Proof.
  intros Hp. rewrite !exec_tagPattern, Hp. cbn [atLineStart].
  rewrite <- (run_shift pos), Nat.add_0_r. by apply run_prev.
Qed.

(** ** extractTags, line by line *)

Lemma lines_unbroken (l : gostring) : unbroken l → lines l = [l].
Proof.
  induction 1 as [|c l Hc _ IH]; [done|]. cbn [lines]. by rewrite Hc, IH.
Qed.

Lemma lines_break (l t : gostring) :
  unbroken l → lines (l ++ newline :: t) = l :: lines t.
Proof.
  induction 1 as [|c l Hc _ IH]; [done|].
  rewrite <- app_comm_cons. cbn [lines]. by rewrite Hc, IH.
Qed.

Lemma first_line (s : gostring) :
  ∃ l, unbroken l ∧ (s = l ∨ ∃ t, s = l ++ newline :: t).
Proof.
  induction s as [|c s (l & Hl & IH)].
  - exists []. split; [constructor|by left].
  - destruct (chr newline c) eqn:E.
    + apply chr_true in E as <-. exists []. split; [constructor|]. right. by exists s.
    + exists (c :: l). split; [by constructor|].
      destruct IH as [->|[t ->]]; [by left|right; by exists t].
Qed.

Lemma noEqualsAfterBreak_break (l t : gostring) :
  noEqualsAfterBreak (l ++ newline :: t) = true →
  equalsNext t = false ∧ noEqualsAfterBreak t = true.
Proof.
  induction l as [|c l IH]; cbn [app noEqualsAfterBreak].
  - change (chr newline newline) with true. cbv iota.
    intros [H1 H2]%andb_prop. split; [by apply negb_true_iff|done].
  - intros [_ H]%andb_prop. by apply IH.
Qed.

Lemma group_shift (pre line tail : gostring) (cap : capture) :
  (∀ x, cap.2 = Some x → x ≤ length line) →
  group (pre ++ line ++ tail) (shiftCap (length pre) cap) = group line cap.
Proof.
  destruct cap as [[a|] [b|]]; try done. intros H. specialize (H b eq_refl).
  cbn [shiftCap group fmap option_fmap option_map fst snd]. unfold slice.
  rewrite drop_app_ge by lia.
  replace (length pre + a - length pre) with a by lia.
  replace (length pre + b - (length pre + a)) with (b - a) by lia.
  destruct (decide (a ≤ length line)) as [Ha|Ha].
  - rewrite drop_app_le by done. apply take_app_le. rewrite length_drop. lia.
  - by replace (b - a) with 0 by lia.
Qed.

Lemma foldl_groups (s : gostring) (ms : list found) (acc : list gostring) :
  foldl (λ tags match_, if 1 <? length match_ then tags ++ [nth 1 match_ []] else tags)
        acc (submatch s <$> ms)
  = acc ++ ((λ m : found, group s m.2) <$> ms).
Proof.
  revert acc. induction ms as [|[[a e] cap] ms IH]; intros acc.
  - cbn [fmap list_fmap foldl]. by rewrite app_nil_r.
  - cbn [fmap list_fmap foldl]. rewrite IH. cbn [submatch length Nat.ltb Nat.leb nth].
    by rewrite <- app_assoc.
Qed.

Lemma extractTags_groups (tagBlock : gostring) :
  extractTags tagBlock
  = (λ m : found, group tagBlock m.2) <$> findAll tagPattern None 0 tagBlock 0.
Proof. unfold extractTags, FindAllStringSubmatch. by rewrite foldl_groups. Qed.

Lemma lineKey_shift (pre line tail : gostring) prev :
  atLineStart prev = true →
  option_list ((λ m : found, group (pre ++ line ++ tail) m.2) <$>
    ((λ r : thread, (length pre, r.1, r.2)) <$>
       exec tagPattern prev (length pre) line noCap))
  = option_list (lineKey line).
Proof.
  intros Hp. rewrite tagPattern_shift by done. unfold lineKey.
  destruct (exec tagPattern None 0 line noCap) as [[e cap]|] eqn:E; [|done].
  cbn [fmap option_fmap option_map option_list shiftThread fst snd]. do 2 f_equal.
  apply group_shift. apply tagPattern_bounds in E as [_ E]. by simpl in E.
Qed.

(** The matches after a leading line of white space are those found from
    the next line on, but for where the first one starts. *)
Lemma findAll_blank_line prev pos (line t : gostring) :
  atLineStart prev = true → unbroken line → dropw space line = [] →
  (λ m : found, m.2) <$> findAll tagPattern prev pos (line ++ newline :: t) 0
  = (λ m : found, m.2) <$> findAll tagPattern (Some newline) (pos + length line + 1) t 0.
Proof.
  intros Hp Hl Hd. pose proof (tagPattern_blank prev pos line t noCap Hp Hd) as E.
  destruct (exec tagPattern (Some newline) (pos + length line + 1) t noCap)
    as [[e cap]|] eqn:Et.
  - pose proof (tagPattern_bounds _ _ _ _ _ Et) as [Hb _].
    rewrite (findAll_resume _ _ _ _ e cap E) by (rewrite length_app; simpl; lia).
    rewrite (findAll_resume _ _ _ _ e cap Et) by lia.
    cbn [fmap list_fmap snd]. do 2 f_equal.
    replace (line ++ newline :: t) with ((line ++ [newline]) ++ t) by by rewrite <- app_assoc.
    assert (Hlen : length (line ++ [newline]) = length line + 1)
      by (rewrite length_app; simpl; lia).
    rewrite take_app_ge, drop_app_ge by lia. rewrite Hlen.
    replace (e - pos - (length line + 1)) with (e - (pos + length line + 1)) by lia.
    rewrite !lastOr_app, lastOr_cons, lastOr_nil. done.
  - unfold tagPattern in *. rewrite findAll_line; [|done|].
    + by rewrite E.
    + intros e cap. by rewrite E.
Qed.

Lemma extractTags_lines_from (n : nat) :
  ∀ (s pre : gostring) prev,
    length s ≤ n → atLineStart prev = true → noEqualsAfterBreak s = true →
    (λ m : found, group (pre ++ s) m.2) <$> findAll tagPattern prev (length pre) s 0
    = omap lineKey (lines s).
Proof.
  induction n as [|n IH]; intros s pre prev Hn Hp Hs.
  - destruct s; [|simpl in Hn; lia]. cbn [findAll lines].
    rewrite exec_tagPattern, Hp. done.
  - destruct (first_line s) as (line & Hl & [->|[t ->]]).
    + rewrite lines_unbroken by done. unfold tagPattern at 1.
      rewrite findAll_last_line; [|done|].
      * fold tagPattern.
        pose proof (lineKey_shift pre line [] prev Hp) as K. rewrite app_nil_r in K.
        change (omap lineKey [line]) with
          (match lineKey line with Some y => [y] | None => [] end).
        destruct (exec tagPattern prev (length pre) line noCap) as [[e cap]|];
          destruct (lineKey line); simpl in K |- *; by simplify_eq.
      * fold tagPattern. intros e cap E. by apply tagPattern_bounds in E as [E _].
    + rewrite lines_break by done.
      apply noEqualsAfterBreak_break in Hs as [Hnext Hs].
      assert (Ht : length t ≤ n) by (rewrite length_app in Hn; simpl in Hn; lia).
      assert (Epre : pre ++ line ++ newline :: t = (pre ++ line ++ [newline]) ++ t)
        by by rewrite <- !app_assoc.
      assert (Elen : length (pre ++ line ++ [newline]) = length pre + length line + 1)
        by (rewrite !length_app; simpl; lia).
      specialize (IH t (pre ++ line ++ [newline]) (Some newline) Ht eq_refl Hs).
      rewrite <- Epre, Elen in IH.
      change (omap ?f (line :: ?ls)) with
        (match f line with Some y => y :: omap f ls | None => omap f ls end).
      destruct (dropw space line) as [|c r] eqn:Hd.
      * rewrite (tagPattern_blank_line line Hd), <- IH.
        pose proof (findAll_blank_line prev (length pre) line t Hp Hl Hd) as E.
        apply (f_equal (fmap (group (pre ++ line ++ newline :: t)))) in E.
        by rewrite <- !list_fmap_compose in E.
      * pose proof (tagPattern_local prev (length pre) line t c r noCap Hd Hnext) as E.
        unfold tagPattern at 1. rewrite findAll_line; [|done|].
        -- fold tagPattern. rewrite E, fmap_app, IH.
           pose proof (lineKey_shift pre line (newline :: t) prev Hp) as K.
           destruct (exec tagPattern prev (length pre) line noCap) as [[e cap]|];
             destruct (lineKey line); simpl in K |- *; by simplify_eq.
        -- fold tagPattern. rewrite E. intros e cap E'.
           by apply tagPattern_bounds in E' as [E' _].
Qed.

(** C3, as amended.  On a text in which no newline is followed, after white
    space only, by an equals sign, extractTags returns the keys captured by
    tagPattern line by line: for each line that matches the pattern from its
    start, its key (quotes left out), in the order of the lines; the other
    lines give nothing and a key that comes twice is returned twice. *)
Theorem extractTags_by_line (tagBlock : gostring) :
  noEqualsAfterBreak tagBlock = true →
  extractTags tagBlock = extractTagsByLine tagBlock.
Proof.
  intros H. rewrite extractTags_groups.
  exact (extractTags_lines_from (length tagBlock) tagBlock [] None (le_n _) eq_refl H).
Qed.

(** ** Blocks with matching braces *)

Lemma scanBytes_braceFree (pre rest : gostring) (i : nat) (bc : Z) (ib : bool) :
  braceFree pre →
  scanBytes (pre ++ rest) i bc ib = scanBytes rest (i + length pre) bc ib.
Proof.
  intros H. revert i. induction H as [|c pre [Hl Hr] _ IH]; intros i.
  - by rewrite Nat.add_0_r.
  - rewrite <- app_comm_cons. cbn [scanBytes]. rewrite Hl, Hr, IH.
    f_equal. simpl. lia.
Qed.

Lemma scanBytes_balanced (body : gostring) :
  balanced body →
  ∀ (rest : gostring) (i : nat) (bc : Z),
    (1 ≤ bc)%Z →
    scanBytes (body ++ rest) i bc true = scanBytes rest (i + length body) bc true.
Proof.
  induction 1 as [|c s Hl Hr _ IH|s t _ IHs _ IHt]; intros rest i bc Hbc.
  - by rewrite Nat.add_0_r.
  - rewrite <- app_comm_cons. cbn [scanBytes]. rewrite Hl, Hr, IH by done.
    f_equal. simpl. lia.
  - rewrite <- app_comm_cons, <- app_assoc. cbn [scanBytes].
    change (chr lbrace lbrace) with true. cbv iota.
    rewrite IHs by lia. rewrite <- app_comm_cons. cbn [scanBytes].
    change (chr lbrace rbrace) with false. change (chr rbrace rbrace) with true.
    cbv iota. replace (bc + 1 - 1)%Z with bc by lia.
    assert ((bc =? 0)%Z = false) as -> by lia. cbn [andb].
    rewrite IHt by done. f_equal. cbn [length]. rewrite ?length_app. cbn [length]. lia.
Qed.

(** The block from the start of the text through the brace that closes the
    first opening brace, whatever is nested in between. *)
Lemma extractProviderBlock_balanced (pre body rest : gostring) :
  braceFree pre → balanced body →
  extractProviderBlock (pre ++ lbrace :: body ++ rbrace :: rest)
  = pre ++ lbrace :: body ++ [rbrace].
Proof.
  intros Hpre Hbody. rewrite extractProviderBlock_bytes.
  rewrite scanBytes_braceFree by done. cbn [scanBytes].
  change (chr lbrace lbrace) with true. cbv iota.
  rewrite scanBytes_balanced by (done || lia). cbn [scanBytes].
  change (chr lbrace rbrace) with false. change (chr rbrace rbrace) with true.
  change ((0 + 1 - 1 =? 0)%Z && true) with true. cbv iota.
  replace (S (0 + length pre) + length body + 1) with
    (length (pre ++ lbrace :: body ++ [rbrace])).
  - replace (pre ++ lbrace :: body ++ rbrace :: rest) with
      ((pre ++ lbrace :: body ++ [rbrace]) ++ rest).
    + by rewrite take_app_length.
    + rewrite <- !app_assoc. cbn [app]. by rewrite <- !app_assoc.
  - rewrite !length_app. simpl. rewrite length_app. simpl. lia.
Qed.

(** ** Matches are not empty *)

Lemma match_nonempty (re : regex) prev pos (s : gostring) cap e cap' :
  detb re = true → needs re = true →
  exec re prev pos s cap = Some (e, cap') → pos < e ≤ pos + length s.
Proof.
  intros D N H. rewrite exec_run in H by done.
  apply run_bounds in H as (H1 & H2 & _). specialize (H2 N). lia.
Qed.

Lemma patterns_take_a_byte :
  needs tagPattern = true ∧ needs providerRegex = true
  ∧ needs aliasRegex = true ∧ needs tagsRegex = true.
Proof. by split_and!. Qed.

(** ** The shape of a tag line *)

Lemma disjoint_spec (p q : ascii → bool) (c : ascii) :
  disjoint p q = true → p c = true → q c = false.
Proof.
  unfold disjoint. rewrite forallb_forall. intros H Hp.
  specialize (H c (in_allBytes c)). rewrite Hp in H. by destruct (q c).
Qed.

Lemma run_Quest (b : bool) (re : regex) prev pos (s : gostring) cap :
  match s with c :: _ => chr dq c = false | [] => True end →
  run (Quest (chr dq) :: re) prev pos (quote b ++ s) cap
  = run re (lastOr prev (quote b)) (pos + length (quote b)) s cap.
Proof.
  intros H. destruct b; cbn [quote app run length].
  - change (chr dq dq) with true. cbv iota. rewrite lastOr_cons, lastOr_nil.
    f_equal. lia.
  - rewrite lastOr_nil, Nat.add_0_r. destruct s as [|c s]; [done|]. by rewrite H.
Qed.

Lemma run_Open (re : regex) prev pos (s : gostring) cap :
  run (Open :: re) prev pos s cap = run re prev pos s (Some pos, cap.2).
Proof. done. Qed.

Lemma run_Close (re : regex) prev pos (s : gostring) cap :
  run (Close :: re) prev pos s cap = run re prev pos s (cap.1, Some pos).
Proof. done. Qed.

(** A line made of white space, an optional quote, a letter followed by
    word bytes, an optional quote, white space and an equals sign has the
    letter and the word bytes for key. *)
Lemma lineKey_shape (ws ws' w rest : gostring) (b1 b2 : bool) (c : ascii) :
  blank ws → blank ws' → letter c = true → Forall (λ x, word x = true) w →
  lineKey (ws ++ quote b1 ++ c :: w ++ quote b2 ++ ws' ++ "="%char :: rest)
  = Some (c :: w).
Proof.
  intros Hws Hws' Hc Hw.
  assert (Hcs : space c = false) by by apply (disjoint_spec letter space).
  assert (Hcq : chr dq c = false) by by apply (disjoint_spec letter (chr dq)).
  assert (Hsw : ∀ x, space x = true → word x = false)
    by (intros x; by apply (disjoint_spec space word)).
  assert (Hsq : ∀ x, space x = true → chr dq x = false)
    by (intros x; by apply (disjoint_spec space (chr dq))).
  unfold lineKey. rewrite exec_tagPattern. cbn [atLineStart].
  rewrite run_Star_app; [|done|by destruct b1; simpl; rewrite ?Hcs].
  unfold tagKeyPattern. rewrite run_Quest by done.
  rewrite run_Open, run_One by done.
  rewrite run_Star_app; [|done|].
  2:{ destruct b2; [done|]. cbn [quote app].
      destruct Hws' as [|x ws' Hx _]; [done|]. simpl. by rewrite (Hsw x Hx). }
  rewrite run_Close, run_Quest.
  2:{ destruct Hws' as [|x ws' Hx _]; [done|]. by apply Hsq. }
  rewrite run_Star_app by first [assumption | reflexivity].
  rewrite run_One by reflexivity.
  cbn [run group fst snd]. f_equal. unfold slice.
  rewrite (app_assoc ws), Nat.add_0_l, <- length_app, drop_app_length.
  replace (S (length (ws ++ quote b1)) + length w - length (ws ++ quote b1))
    with (length (c :: w)) by (simpl; lia).
  by rewrite app_comm_cons, take_app_length.
Qed.

(** ** The scenarios *)

(** C2, counterexample.  On the one-line block tagPattern, anchored at the
    start of a line, finds the first key only: the scan fails and reports the
    other seven tags missing. *)
Lemma oneLineScenario_fails :
  checkAllAwsProviders oneLineScenario
  = ([], Some (str "❌ Provider 'aws (default)' is missing tags: [application is-production owner namespace service-area source-code slack-channel]"))
  ∧ ¬ ∃ tags,
      checkAllAwsProviders oneLineScenario
      = ([{| name := str "aws (default)"; tags := tags |}], None)
      ∧ length tags = 8 ∧ findMissingTags tags = [].
Proof.
  assert (E : checkAllAwsProviders oneLineScenario
    = ([], Some (str "❌ Provider 'aws (default)' is missing tags: [application is-production owner namespace service-area source-code slack-channel]")))
    by (vm_compute; reflexivity).
  split; [done|]. intros (tags & H & _). by rewrite E in H.
Qed.

(** C2, as amended.  With each assignment of the tags map on a line of its
    own the scan succeeds with the one provider aws (default), its eight
    tags and none missing; on the one-line block only business-unit is
    found, and the scan fails with the other seven tags reported missing. *)
Theorem manyLinesScenario_succeeds :
  checkAllAwsProviders manyLinesScenario
  = ([{| name := str "aws (default)"; tags := allTags |}], None)
  ∧ length allTags = 8
  ∧ findMissingTags allTags = []
  ∧ extractTags (nth 1 (FindStringSubmatch tagsRegex oneLineScenario) [])
    = [str "business-unit"]
  ∧ checkAllAwsProviders oneLineScenario
    = ([], Some (missingTagsMessage (str "aws (default)")
                   [ str "application"; str "is-production"; str "owner";
                     str "namespace"; str "service-area"; str "source-code";
                     str "slack-channel" ])).
Proof. split_and!; vm_compute; reflexivity. Qed.

(** C3, counterexample.  A key whose equals sign stands on the next line
    is returned although no line matches the pattern. *)
Lemma brokenAssignment_differs :
  extractTags brokenAssignment = [str "owner"]
  ∧ extractTagsByLine brokenAssignment = []
  ∧ extractTags brokenAssignment ≠ extractTagsByLine brokenAssignment.
Proof. split_and!; [vm_compute; reflexivity..|]. by vm_compute. Qed.

(** ** The properties at sample texts *)

Lemma extractProviderBlock_closing_brace_witness :
  nested_example !! 53 = Some rbrace
  ∧ braceDepth (take 54 nested_example) = 0%Z
  ∧ nested_example !! 49 = Some rbrace
  ∧ extractProviderBlock nested_example
    = txt "provider 'aws' { default_tags { tags = { a = 'b' } } }".
Proof.
  split_and!; [reflexivity..|].
  apply (extractProviderBlock_closing_brace nested_example 53);
    [reflexivity | reflexivity | by apply closesAt_none].
Defined.

Lemma extractProviderBlock_unbalanced_witness :
  extractProviderBlock (txt "provider 'aws' { default_tags { tags = { a = 'b' }")
  = txt "provider 'aws' { default_tags { tags = { a = 'b' }".
Proof.
  apply extractProviderBlock_unbalanced.
  intros j Hj. apply (closesAt_none _ 60); [reflexivity| |done].
  apply lookup_lt_Some in Hj. vm_compute in Hj. lia.
Defined.

Lemma extractTags_by_line_witness :
  noEqualsAfterBreak mixedTagsMap = true
  ∧ extractTags mixedTagsMap = extractTagsByLine mixedTagsMap
  ∧ extractTagsByLine mixedTagsMap = [str "owner"; str "namespace"; str "owner"].
Proof.
  split_and!; [reflexivity| |vm_compute; reflexivity].
  apply (extractTags_by_line mixedTagsMap). reflexivity.
Defined.

Lemma checkAllAwsProviders_no_default_tags_witness :
  (0, 14) ∈ FindAllStringIndex providerRegex threeProviders
  ∧ FindStringSubmatch tagsRegex (blockOf threeProviders (0, 14)) = []
  ∧ providerRecord threeProviders (0, 14) = None
  ∧ providerError threeProviders (0, 14)
    = Some (noDefaultTagsMessage (str "aws (default)"))
  ∧ noDefaultTagsMessage (str "aws (default)")
    ≠ missingTagsMessage (str "aws (default)") requiredTags
  ∧ ∃ err pre post,
      checkAllAwsProviders threeProviders = ([], Some err)
      ∧ err = pre ++ noDefaultTagsMessage (str "aws (default)") ++ post.
Proof.
  assert (H1 : (0, 14) ∈ FindAllStringIndex providerRegex threeProviders).
  { assert (FindAllStringIndex providerRegex threeProviders
            = [(0, 14); (40, 54); (237, 251)]) as -> by (vm_compute; reflexivity).
    apply list_elem_of_here. }
  assert (H2 : FindStringSubmatch tagsRegex (blockOf threeProviders (0, 14)) = [])
    by (vm_compute; reflexivity).
  assert (Hn : providerNameOf (blockOf threeProviders (0, 14)) = str "aws (default)")
    by (vm_compute; reflexivity).
  pose proof (checkAllAwsProviders_no_default_tags threeProviders (0, 14) H1 H2) as R.
  cbv zeta in R. rewrite Hn in R. destruct R as (Hrec & Herr & Hd & Hc).
  split_and!; [done..|apply Hd|exact Hc].
Defined.

(** C5, counterexample.  A provider without default_tags is not reported
    as missing the eight required tags: its message is another one than the
    message listing them, and none of the eight tags is named in it. *)
Lemma bareProvider_names_no_tag :
  (0, 14) ∈ FindAllStringIndex providerRegex bareProvider
  ∧ FindStringSubmatch tagsRegex (blockOf bareProvider (0, 14)) = []
  ∧ checkAllAwsProviders bareProvider
    = ([], Some (str "❌ Provider 'aws (default)' does not have default_tags block with all required tags"))
  ∧ checkAllAwsProviders bareProvider
    ≠ ([], Some (missingTagsMessage (str "aws (default)") requiredTags))
  ∧ Forall (λ tag, occurrences tag (str "❌ Provider 'aws (default)' does not have default_tags block with all required tags") = [])
      requiredTags.
Proof.
  assert (E : checkAllAwsProviders bareProvider
    = ([], Some (str "❌ Provider 'aws (default)' does not have default_tags block with all required tags")))
    by (vm_compute; reflexivity).
  split_and!; [|vm_compute; reflexivity|done| |].
  - assert (FindAllStringIndex providerRegex bareProvider = [(0, 14)]) as ->
      by (vm_compute; reflexivity).
    apply list_elem_of_here.
  - rewrite E. intros H. vm_compute in H. discriminate H.
  - repeat (constructor; [vm_compute; reflexivity|]). constructor.
Qed.

Lemma checkAllAwsProviders_no_provider_witness :
  ¬ providerOccurrence (txt "resource 'aws_s3_bucket' 'b' { }")
  ∧ checkAllAwsProviders (txt "resource 'aws_s3_bucket' 'b' { }")
    = ([], Some noProvidersMessage).
Proof.
  assert (H : ¬ providerOccurrence (txt "resource 'aws_s3_bucket' 'b' { }")).
  { intros H. apply providerOccurrence_found in H. apply H. vm_compute. reflexivity. }
  split; [done|]. by apply checkAllAwsProviders_no_provider.
Defined.

Lemma checkAllAwsProviders_success_compliant_witness :
  checkAllAwsProviders manyLinesScenario
  = ([{| name := str "aws (default)"; tags := allTags |}], None)
  ∧ Forall compliant [{| name := str "aws (default)"; tags := allTags |}].
Proof.
  assert (H : checkAllAwsProviders manyLinesScenario
              = ([{| name := str "aws (default)"; tags := allTags |}], None))
    by (vm_compute; reflexivity).
  split; [done|]. by apply (checkAllAwsProviders_success_compliant manyLinesScenario).
Defined.

Lemma checkAllAwsProviders_reports_all_witness :
  providerOccurrence threeProviders
  ∧ omap (providerError threeProviders)
         (FindAllStringIndex providerRegex threeProviders)
    = [noDefaultTagsMessage (str "aws (default)");
       missingTagsMessage (str "aws (alias: replica)") [str "slack-channel"]]
  ∧ checkAllAwsProviders threeProviders
    = ([], Some (noDefaultTagsMessage (str "aws (default)") ++ [newline]
                 ++ missingTagsMessage (str "aws (alias: replica)")
                      [str "slack-channel"])).
Proof.
  assert (H : providerOccurrence threeProviders).
  { apply providerOccurrence_found. vm_compute. discriminate. }
  assert (E : omap (providerError threeProviders)
                   (FindAllStringIndex providerRegex threeProviders)
    = [noDefaultTagsMessage (str "aws (default)");
       missingTagsMessage (str "aws (alias: replica)") [str "slack-channel"]])
    by (vm_compute; reflexivity).
  split_and!; [done..|].
  pose proof (checkAllAwsProviders_reports_all threeProviders H) as R.
  cbv zeta in R. rewrite E in R. by destruct R as (_ & R & _).
Defined.

Lemma checkAllAwsProviders_empty_tags_map_witness :
  (0, 14) ∈ FindAllStringIndex providerRegex emptyMapProvider
  ∧ blockOf emptyMapProvider (0, 14)
    = txt "provider 'aws' { " ++ emptyTagsMap (str " ") (str " ") (str " ") (str " ")
      ++ str " } }"
  ∧ occurrences (str "default_tags") (blockOf emptyMapProvider (0, 14)) = [17]
  ∧ providerError emptyMapProvider (0, 14)
    = Some (noDefaultTagsMessage (str "aws (default)"))
  ∧ checkAllAwsProviders emptyMapProvider
    = ([], Some (noDefaultTagsMessage (str "aws (default)"))).
Proof.
  assert (H1 : (0, 14) ∈ FindAllStringIndex providerRegex emptyMapProvider).
  { assert (FindAllStringIndex providerRegex emptyMapProvider = [(0, 14)]) as ->
      by (vm_compute; reflexivity).
    apply list_elem_of_here. }
  assert (H2 : blockOf emptyMapProvider (0, 14)
    = txt "provider 'aws' { " ++ emptyTagsMap (str " ") (str " ") (str " ") (str " ")
      ++ str " } }") by (vm_compute; reflexivity).
  assert (H3 : occurrences (str "default_tags") (blockOf emptyMapProvider (0, 14))
               = [length (txt "provider 'aws' { ")]) by (vm_compute; reflexivity).
  assert (Hb : blank (str " ")) by (repeat constructor).
  destruct (checkAllAwsProviders_empty_tags_map emptyMapProvider (0, 14) _ _ _ _ _ _
              H1 H2 Hb Hb Hb Hb H3) as (_ & _ & Herr & _ & _).
  split_and!; [done..| |vm_compute; reflexivity].
  rewrite Herr. vm_compute. reflexivity.
Defined.

(** ** Further examples *)

Example extractProviderBlock_flat :
  extractProviderBlock (str "provider { a = 1 } tail") = str "provider { a = 1 }".
Proof. reflexivity. Qed.

Example extractProviderBlock_nested :
  extractProviderBlock (str "p { d { t = { a = 1 } } } x { y }")
  = str "p { d { t = { a = 1 } } }".
Proof. reflexivity. Qed.

Example extractProviderBlock_stray_close :
  extractProviderBlock (str "} { }") = str "} { }".
Proof. reflexivity. Qed.

Example extractProviderBlock_utf8 :
  extractProviderBlock (str "é { ❌ } é") = str "é { ❌ }".
Proof. reflexivity. Qed.

Example extractProviderBlock_brace_free :
  extractProviderBlock (txt "provider 'aws'") = txt "provider 'aws'".
Proof. reflexivity. Qed.

Example findMissingTags_case_sensitive :
  findMissingTags [str "Owner"; str "business-unit"; str "owner "; str "namespace"]
  = [ str "application"; str "is-production"; str "owner"; str "service-area";
      str "source-code"; str "slack-channel" ].
Proof. vm_compute. reflexivity. Qed.

Example findMissingTags_duplicates :
  findMissingTags (allTags ++ allTags) = [].
Proof. vm_compute. reflexivity. Qed.

Example extractTags_mixed :
  extractTags mixedTagsMap = [str "owner"; str "namespace"; str "owner"].
Proof. vm_compute. reflexivity. Qed.

(** A tags map holding one space is found, with no tag in it: the provider
    is then reported with all eight tags missing. *)
Example blank_tags_map :
  checkAllAwsProviders (txt "provider 'aws' { default_tags { tags = { } } }")
  = ([], Some (missingTagsMessage (str "aws (default)") allTags)).
Proof. vm_compute. reflexivity. Qed.

Example threeProviders_scan :
  checkAllAwsProviders threeProviders
  = ([], Some (str "❌ Provider 'aws (default)' does not have default_tags block with all required tags" ++ [newline] ++ str "❌ Provider 'aws (alias: replica)' is missing tags: [slack-channel]")).
Proof. vm_compute. reflexivity. Qed.

Example joinErrors_three :
  joinErrors [str "a"; str "b"; str "c"] = str "a" ++ [newline] ++ str "b" ++ [newline] ++ str "c".
Proof. reflexivity. Qed.

(** ** More on extractProviderBlock *)

Lemma scanBytes_Some (s : gostring) (i : nat) (bc : Z) (ib : bool) (e : nat) :
  (ib = false → (bc ≤ 0)%Z) →
  scanBytes s i bc ib = Some e →
  ∃ n, e = i + n + 1 ∧ s !! n = Some rbrace
    ∧ depthFrom bc (take (S n) s) = 0%Z
    ∧ ∀ j, j < n → s !! j = Some rbrace → depthFrom bc (take (S j) s) ≠ 0%Z.
Proof.
  revert i bc ib. induction s as [|c s IH]; intros i bc ib Hinv H; [done|].
  cbn [scanBytes] in H.
  assert (Hstep : ∀ bc' ib', (ib' = false → (bc' ≤ 0)%Z) →
    bc' = (if chr lbrace c then bc + 1 else if chr rbrace c then bc - 1 else bc)%Z →
    (chr rbrace c = true → chr lbrace c = false → bc' ≠ 0%Z) →
    scanBytes s (S i) bc' ib' = Some e →
    ∃ n, e = i + n + 1 ∧ (c :: s) !! n = Some rbrace
      ∧ depthFrom bc (take (S n) (c :: s)) = 0%Z
      ∧ ∀ j, j < n → (c :: s) !! j = Some rbrace →
          depthFrom bc (take (S j) (c :: s)) ≠ 0%Z).
  { intros bc' ib' Hinv' Ebc Hnz H'. apply IH in H' as (n & -> & Hn & Hd & Hf); [|done].
    exists (S n). split_and!; [lia|done| |].
    - by rewrite firstn_cons, depthFrom_cons, <- Ebc.
    - intros [|j] Hj Hc.
      + simpl in Hc. injection Hc as ->. unfold depthFrom. simpl.
        change (chr lbrace rbrace) with false in *.
        change (chr rbrace rbrace) with true in *. rewrite <- Ebc. by apply Hnz.
      + rewrite firstn_cons, depthFrom_cons, <- Ebc. apply Hf; [lia|done]. }
  destruct (chr lbrace c) eqn:El.
  - by apply (Hstep (bc + 1)%Z true).
  - destruct (chr rbrace c) eqn:Er.
    + destruct ((bc - 1 =? 0)%Z && ib) eqn:Ez.
      * injection H as <-. apply andb_prop in Ez as [Ez _].
        apply chr_true in Er as <-. exists 0. split_and!; [lia|done| |lia].
        unfold depthFrom. simpl. change (chr lbrace rbrace) with false.
        change (chr rbrace rbrace) with true. lia.
      * apply (Hstep (bc - 1)%Z ib); [|done| |done].
        -- intros E. specialize (Hinv E). lia.
        -- intros _ _. apply andb_false_iff in Ez as [Ez| ->]; [lia|].
           specialize (Hinv eq_refl). lia.
    + by apply (Hstep bc ib).
Qed.

Lemma depthFrom_app (d : Z) (u v : gostring) :
  depthFrom d (u ++ v) = depthFrom (depthFrom d u) v.
Proof. unfold depthFrom. by rewrite foldl_app. Qed.

(** The text returned is cut from the front of the input; when something is
    cut off, the text returned ends with a closing brace, holds as many
    opening as closing braces and is the shortest such prefix. *)
Theorem extractProviderBlock_prefix (content : gostring) :
  ∃ rest,
    content = extractProviderBlock content ++ rest
    ∧ (rest ≠ [] →
       last (extractProviderBlock content) = Some rbrace
       ∧ braceDepth (extractProviderBlock content) = 0%Z
       ∧ ∀ j, S j < length (extractProviderBlock content) →
           content !! j = Some rbrace → braceDepth (take (S j) content) ≠ 0%Z).
Proof.
  rewrite extractProviderBlock_bytes.
  destruct (scanBytes content 0 0 false) as [e|] eqn:E.
  - apply scanBytes_Some in E as (n & -> & Hn & Hd & Hf); [|done].
    pose proof (lookup_lt_Some _ _ _ Hn) as Hlt. cbv iota beta.
    replace (0 + n + 1) with (S n) by lia.
    exists (drop (S n) content). split; [symmetry; apply take_drop|].
    intros _. split_and!; [|exact Hd|].
    + rewrite (take_S_r _ _ _ Hn). by rewrite last_snoc.
    + intros j Hj. rewrite length_take in Hj. apply Hf. lia.
  - exists []. split; [by rewrite app_nil_r|done].
Qed.

(** Extracting the block of an extracted block changes nothing. *)
Theorem extractProviderBlock_idempotent (content : gostring) :
  extractProviderBlock (extractProviderBlock content) = extractProviderBlock content.
Proof.
  rewrite (extractProviderBlock_bytes content).
  destruct (scanBytes content 0 0 false) as [e|] eqn:E;
    [|by rewrite extractProviderBlock_bytes, E].
  apply scanBytes_Some in E as (n & -> & Hn & Hd & Hf); [|done].
  pose proof (lookup_lt_Some _ _ _ Hn) as Hlt. cbv iota beta.
  replace (0 + n + 1) with (S n) by lia.
  rewrite extractProviderBlock_bytes.
  rewrite (scanBytes_found (take (S n) content) 0 0 false n); [| done | | |].
  - replace (0 + n + 1) with (S n) by lia. by rewrite take_take, Nat.min_id.
  - rewrite lookup_take_lt by lia. done.
  - by rewrite take_take, Nat.min_id.
  - intros j Hj Hc. rewrite lookup_take_lt in Hc by lia.
    rewrite take_take. replace (S j `min` S n) with (S j) by lia. by apply Hf.
Qed.

(** Ranging over the text rune by rune finds the same end of block as ranging
    byte by byte: bytes of multi-byte or invalid sequences are never taken
    for braces and never shift the offsets. *)
Theorem scanBraces_by_byte (content : gostring) :
  scanBraces content 0 0 0%Z false = scanBytes content 0 0%Z false.
Proof. by rewrite scanBraces_bytes, drop_0. Qed.

(** ** More on findMissingTags *)

Lemma elem_of_findMissingTags (foundTags : list gostring) (r : gostring) :
  r ∈ findMissingTags foundTags ↔ r ∈ requiredTags ∧ r ∉ foundTags.
Proof.
  rewrite findMissingTags_filter, list_elem_of_filter. split; intros []; by split.
Qed.

Lemma NoDup_requiredTags : NoDup requiredTags.
Proof. apply (bool_decide_unpack (NoDup requiredTags)). by vm_compute. Qed.

(** The tags reported missing are required tags that were not found, each
    reported once and in the order of the required tags. *)
Theorem findMissingTags_sound (foundTags : list gostring) :
  sublist (findMissingTags foundTags) requiredTags
  ∧ NoDup (findMissingTags foundTags)
  ∧ ∀ r, r ∈ findMissingTags foundTags ↔ r ∈ requiredTags ∧ r ∉ foundTags.
Proof.
  split_and!.
  - rewrite findMissingTags_filter. apply sublist_filter.
  - rewrite findMissingTags_filter. apply NoDup_filter, NoDup_requiredTags.
  - apply elem_of_findMissingTags.
Qed.

(** Nothing is missing exactly when every required tag was found. *)
Lemma findMissingTags_nil_iff (foundTags : list gostring) :
  findMissingTags foundTags = [] ↔ ∀ r, r ∈ requiredTags → r ∈ foundTags.
Proof.
  split; [apply findMissingTags_nil|]. intros H.
  destruct (findMissingTags foundTags) as [|r l] eqn:E; [done|].
  assert (Hr : r ∈ findMissingTags foundTags) by (rewrite E; left).
  apply elem_of_findMissingTags in Hr as [Hr Hn]. by destruct Hn; apply H.
Qed.

(** Only the set of found tags counts: their order and their repetitions do
    not change what is missing. *)
Theorem findMissingTags_set (found1 found2 : list gostring) :
  (∀ t, t ∈ found1 ↔ t ∈ found2) →
  findMissingTags found1 = findMissingTags found2.
Proof.
  intros H. rewrite !findMissingTags_filter. apply list_filter_iff.
  intros r. by rewrite H.
Qed.

(** Finding more tags never adds a missing tag. *)
Theorem findMissingTags_antitone (found1 found2 : list gostring) :
  found1 ⊆ found2 →
  sublist (findMissingTags found2) (findMissingTags found1).
Proof.
  intros H. rewrite !findMissingTags_filter.
  induction requiredTags as [|r l IH]; [done|].
  rewrite !filter_cons.
  destruct (decide (r ∉ found2)) as [H2|H2].
  - rewrite decide_True by (intros H1; apply H2, H, H1). by apply sublist_skip.
  - destruct (decide (r ∉ found1)); [by apply sublist_cons|done].
Qed.

(** Once the tags reported missing are added, nothing is missing. *)
Theorem findMissingTags_complete (foundTags : list gostring) :
  findMissingTags (foundTags ++ findMissingTags foundTags) = [].
Proof.
  apply findMissingTags_nil_iff. intros r Hr. apply elem_of_app.
  destruct (decide (r ∈ foundTags)); [by left|right].
  by apply elem_of_findMissingTags.
Qed.

(** ** More on joinErrors *)

(** The messages are the lines of the text joinErrors makes of them, when
    no message holds a newline. *)
Theorem joinErrors_lines (errors : list gostring) :
  errors ≠ [] → Forall unbroken errors → lines (joinErrors errors) = errors.
Proof.
  intros Hne H. destruct H as [|e l He Hl]; [done|]. clear Hne.
  rewrite joinErrors_cons. revert e He.
  induction Hl as [|e' l He' Hl IH]; intros e He.
  - simpl. rewrite app_nil_r. by apply lines_unbroken.
  - cbn [fmap list_fmap concat]. rewrite <- app_comm_cons, lines_break by done.
    f_equal. by apply IH.
Qed.

(** ** The matches of a search *)

Lemma findAll_elem (re : regex) (s : gostring) :
  ∀ prev pos skip a e cap,
    (a, e, cap) ∈ findAll re prev pos s skip →
    ∃ k, a = pos + k ∧ skip ≤ k ≤ length s
      ∧ exec re (lastOr prev (take k s)) a (drop k s) noCap = Some (e, cap).
Proof.
  induction s as [|c s IH]; intros prev pos skip a e cap H.
  - destruct skip; cbn [findAll] in H; [|by apply elem_of_nil in H].
    destruct (exec re prev pos [] noCap) as [[e' cap']|] eqn:E;
      [|by apply elem_of_nil in H].
    apply list_elem_of_singleton in H as [= -> -> ->].
    exists 0. rewrite Nat.add_0_r. by split_and!.
  - assert (Hnext : ∀ j, (a, e, cap) ∈ findAll re (Some c) (S pos) s j →
      ∃ k, a = pos + k ∧ S j ≤ k ≤ length (c :: s)
        ∧ exec re (lastOr prev (take k (c :: s))) a (drop k (c :: s)) noCap
          = Some (e, cap)).
    { intros j Hj. apply IH in Hj as (k & -> & Hk & Hx). exists (S k).
      cbn [take drop length]. rewrite lastOr_cons.
      split_and!; [lia..|done]. }
    destruct skip as [|j]; cbn [findAll] in H; [|by apply Hnext].
    destruct (exec re prev pos (c :: s) noCap) as [[e' cap']|] eqn:E.
    + apply elem_of_cons in H as [[= -> -> ->]|H].
      * exists 0. rewrite Nat.add_0_r. split_and!; [done|simpl; lia..|done].
      * apply Hnext in H as (k & ? & ? & ?). exists k. split_and!; [done|lia..|done].
    + apply Hnext in H as (k & ? & ? & ?). exists k. split_and!; [done|lia..|done].
Qed.

Lemma findAll_sorted (re : regex) (s : gostring) :
  (∀ prev pos s e cap, exec re prev pos s noCap = Some (e, cap) → pos < e) →
  ∀ prev pos skip,
    StronglySorted (λ m1 m2 : found, m1.1.2 ≤ m2.1.1) (findAll re prev pos s skip).
Proof.
  intros Hne. induction s as [|c s IH]; intros prev pos skip.
  - destruct skip; cbn [findAll]; [|constructor].
    destruct (exec re prev pos [] noCap) as [[e cap]|]; repeat constructor.
  - destruct skip as [|j]; cbn [findAll]; [|apply IH].
    destruct (exec re prev pos (c :: s) noCap) as [[e cap]|] eqn:E; [|apply IH].
    constructor; [apply IH|]. apply Forall_forall. intros [[a' e'] cap'] Hin.
    apply findAll_elem in Hin as (k & -> & Hk & _). apply Hne in E. simpl. lia.
Qed.

Lemma slice_mid (u v w : gostring) :
  slice (u ++ v ++ w) (length u) (length u + length v) = v.
Proof.
  unfold slice. rewrite drop_app_length.
  replace (length u + length v - length u) with (length v) by lia.
  by rewrite take_app_length.
Qed.

(** ** Where the providers are found *)

Lemma providerRegex_match prev pos (s : gostring) e cap :
  exec providerRegex prev pos s noCap = Some (e, cap) →
  ∃ ws post, s = str "provider" ++ ws ++ [dq] ++ str "aws" ++ [dq] ++ post
    ∧ ws ≠ [] ∧ blank ws ∧ e = pos + (13 + length ws).
Proof.
  rewrite exec_run by reflexivity. unfold providerRegex. intros H.
  apply run_lit_inv in H as (s1 & -> & H).
  cbn [app run] in H.
  destruct s1 as [|c s1]; [done|]. destruct (space c) eqn:Hc; [|done].
  destruct (dropw space s1) as [|d s2] eqn:Hd; [done|].
  destruct (chr dq d) eqn:Ed; [|done]. apply chr_true in Ed as <-.
  apply run_lit_inv in H as (s3 & -> & H).
  cbn [app run] in H.
  destruct s3 as [|x post]; [done|].
  destruct (chr dq x) eqn:Ee; [|done]. apply chr_true in Ee as <-.
  injection H as <- <-.
  exists (c :: takew space s1), post. split_and!.
  - rewrite <- (takew_dropw space s1) at 1. by rewrite Hd.
  - done.
  - constructor; [done|apply Forall_takew].
  - simpl. lia.
Qed.

(** The text of an occurrence holds no brace. *)
Lemma occurrence_braceFree (ws : gostring) :
  blank ws → braceFree (str "provider" ++ ws ++ [dq] ++ str "aws" ++ [dq]).
Proof.
  intros H. unfold braceFree. rewrite !Forall_app. split_and!.
  - by repeat constructor.
  - eapply Forall_impl; [exact H|]. intros c Hc. simpl in Hc.
    split; [by apply (disjoint_spec space (chr lbrace))
           |by apply (disjoint_spec space (chr rbrace))].
  - by repeat constructor.
  - by repeat constructor.
  - by repeat constructor.
Qed.

Lemma extractProviderBlock_keeps (pre rest : gostring) :
  braceFree pre → ∃ rest', extractProviderBlock (pre ++ rest) = pre ++ rest'.
Proof.
  intros H. rewrite extractProviderBlock_bytes, scanBytes_braceFree by done.
  destruct (scanBytes rest _ _ _) as [e|] eqn:E; [|by eexists].
  apply scanBytes_Some in E as (n & -> & _); [|done].
  exists (take (n + 1) rest). rewrite take_app_ge by lia. f_equal. f_equal. lia.
Qed.

(** Every provider found lies within the text, starts where the text reads
    provider, white space and aws between double quotes, and ends before
    the next one starts; its block opens with that very text. *)
Theorem provider_locations (content : gostring) :
  Forall (λ loc : nat * nat,
            loc.1 < loc.2 ≤ length content
            ∧ ∃ ws post,
                drop loc.1 content
                = str "provider" ++ ws ++ [dq] ++ str "aws" ++ [dq] ++ post
                ∧ ws ≠ [] ∧ blank ws ∧ loc.2 = loc.1 + (13 + length ws)
                ∧ ∃ rest, blockOf content loc
                          = str "provider" ++ ws ++ [dq] ++ str "aws" ++ [dq] ++ rest)
         (FindAllStringIndex providerRegex content)
  ∧ StronglySorted (λ l1 l2 : nat * nat, l1.2 ≤ l2.1)
      (FindAllStringIndex providerRegex content).
Proof.
  unfold FindAllStringIndex. split.
  - apply Forall_fmap, Forall_forall. intros [[a e] cap] Hin.
    apply findAll_elem in Hin as (k & -> & Hk & Hx). cbn [fst snd] in *.
    pose proof Hx as Hm. apply providerRegex_match in Hm as (ws & post & Hs & Hne & Hws & ->).
    assert (Hlen : length (drop k content) = 13 + length ws + length post).
    { rewrite Hs, !length_app. simpl. lia. }
    rewrite length_drop in Hlen.
    unfold compose. cbn [fst snd]. split; [lia|]. exists ws, post. split_and!; [done..|].
    unfold blockOf. cbn [fst]. rewrite Nat.add_0_l, Hs.
    destruct (extractProviderBlock_keeps
                (str "provider" ++ ws ++ [dq] ++ str "aws" ++ [dq]) post
                (occurrence_braceFree ws Hws)) as [rest Hrest].
    exists rest. rewrite <- !app_assoc in Hrest. exact Hrest.
  - apply StronglySorted_fmap with (R1 := λ m1 m2 : found, m1.1.2 ≤ m2.1.1); [done|].
    apply findAll_sorted. intros prev pos s e cap H.
    by apply (match_nonempty providerRegex) in H as [H _].
Qed.

(** ** The name of a provider *)

Lemma search_first (re : regex) (s : gostring) :
  ∀ prev pos k e cap,
    k ≤ length s →
    (∀ j, j < k →
       exec re (lastOr prev (take j s)) (pos + j) (drop j s) noCap = None) →
    exec re (lastOr prev (take k s)) (pos + k) (drop k s) noCap = Some (e, cap) →
    search re prev pos s = Some (pos + k, e, cap).
Proof.
  induction s as [|c s IH]; intros prev pos k e cap Hk Hj Hx.
  - assert (k = 0) as -> by (simpl in Hk; lia). cbn [take drop] in Hx.
    rewrite lastOr_nil in Hx. rewrite Nat.add_0_r in *. cbn [search]. by rewrite Hx.
  - destruct k as [|k].
    + cbn [take drop] in Hx. rewrite lastOr_nil in Hx. rewrite Nat.add_0_r in *.
      cbn [search]. by rewrite Hx.
    + pose proof (Hj 0 ltac:(lia)) as H0. cbn [take drop] in H0.
      rewrite lastOr_nil, Nat.add_0_r in H0. cbn [search]. rewrite H0.
      cbn [take drop] in Hx. rewrite lastOr_cons, Nat.add_succ_r in Hx.
      rewrite Nat.add_succ_r. apply (IH (Some c) (S pos) k); [simpl in Hk; lia| |done].
      intros j Hlt. specialize (Hj (S j) ltac:(lia)). cbn [take drop] in Hj.
      by rewrite lastOr_cons, Nat.add_succ_r in Hj.
Qed.

Lemma exec_lit_absent (w : gostring) (re : regex) prev pos (s : gostring) (k : nat) :
  detb (lit w ++ re) = true → k ≤ length s → occursAt w s k = false →
  exec (lit w ++ re) prev pos (drop k s) noCap = None.
Proof.
  intros D Hk Ho. rewrite exec_run by done.
  destruct (run (lit w ++ re) prev pos (drop k s) noCap) as [r|] eqn:E; [|done].
  apply run_lit_inv in E as (s' & Es & _). unfold occursAt in Ho.
  apply bool_decide_eq_false in Ho. destruct Ho. by rewrite Es, take_app_length.
Qed.

Lemma run_Plus_app (p : ascii → bool) (re : regex) prev pos (v x : gostring) cap :
  v ≠ [] → Forall (λ c, p c = true) v → takew p x = [] →
  run (Plus p :: re) prev pos (v ++ x) cap = run re (lastOr prev v) (pos + length v) x cap.
Proof.
  intros Hne Hv Hx. destruct Hv as [|c v Hc Hv]; [done|].
  rewrite <- app_comm_cons. cbn [run]. rewrite Hc, takew_app, dropw_app by done.
  rewrite Hx, app_nil_r, takew_nil_dropw, lastOr_cons by done. f_equal. simpl. lia.
Qed.

Lemma notchr_true (c d : ascii) : notchr c d = true ↔ d ≠ c.
Proof.
  unfold notchr. rewrite negb_true_iff. fold (chr c d). rewrite chr_false. naive_solver.
Qed.

Lemma aliasRegex_match prev pos (s : gostring) e cap :
  exec aliasRegex prev pos s noCap = Some (e, cap) →
  ∃ ws ws' v post,
    s = str "alias" ++ ws ++ str "=" ++ ws' ++ [dq] ++ v ++ [dq] ++ post
    ∧ blank ws ∧ blank ws' ∧ v ≠ [] ∧ Forall (λ c, c ≠ dq) v
    ∧ cap = (Some (pos + (7 + length ws + length ws')),
             Some (pos + (7 + length ws + length ws') + length v)).
Proof.
  rewrite exec_run by reflexivity. unfold aliasRegex. intros H.
  apply run_lit_inv in H as (s1 & -> & H). cbn [app run] in H.
  pose proof (takew_dropw space s1) as E1. pose proof (Forall_takew space s1) as F1.
  destruct (dropw space s1) as [|c s2]; [done|].
  destruct (chr "=" c) eqn:Ec; [|done]. apply chr_true in Ec as <-.
  pose proof (takew_dropw space s2) as E2. pose proof (Forall_takew space s2) as F2.
  destruct (dropw space s2) as [|d s3]; [done|].
  destruct (chr dq d) eqn:Ed; [|done]. apply chr_true in Ed as <-.
  destruct s3 as [|x s4]; [done|]. destruct (notchr dq x) eqn:Hx; [|done].
  pose proof (takew_dropw (notchr dq) s4) as E3.
  pose proof (Forall_takew (notchr dq) s4) as F3.
  destruct (dropw (notchr dq) s4) as [|y post]; [done|].
  destruct (chr dq y) eqn:Ey; [|done]. apply chr_true in Ey as <-.
  injection H as <- <-.
  exists (takew space s1), (takew space s2), (x :: takew (notchr dq) s4), post.
  split_and!; [|done|done|done| |].
  - rewrite <- E1 at 1. rewrite <- E2 at 1. rewrite <- E3 at 1.
    by rewrite <- ?app_assoc.
  - constructor; [by apply notchr_true|].
    eapply Forall_impl; [exact F3|]. intros c Hc. by apply notchr_true.
  - cbn [fst snd length]. f_equal; f_equal; simpl; lia.
Qed.

(** A provider is named after its alias or is the default one: the alias
    is the text, not empty and free of double quotes, put between double
    quotes after the first alias, white space, equals sign, white space of
    the block. *)
Theorem providerNameOf_form (block : gostring) :
  providerNameOf block = str "aws (default)"
  ∨ (∃ pre ws ws' alias post,
      block = pre ++ str "alias" ++ ws ++ str "=" ++ ws' ++ [dq] ++ alias ++ [dq] ++ post
      ∧ blank ws ∧ blank ws' ∧ alias ≠ [] ∧ (dq ∉ alias)
      ∧ providerNameOf block = str "aws (alias: " ++ alias ++ str ")").
Proof.
  unfold providerNameOf, FindStringSubmatch.
  destruct (search aliasRegex None 0 block) as [[[a e] cap]|] eqn:E; [|by left].
  right. apply search_Some in E as (k & -> & Hk & E & _).
  apply aliasRegex_match in E as (ws & ws' & v & post & Es & H1 & H2 & Hne & Hv & ->).
  exists (take k block), ws, ws', v, post.
  assert (Eb : block = (take k block ++ str "alias" ++ ws ++ str "=" ++ ws' ++ [dq])
                       ++ v ++ [dq] ++ post).
  { rewrite <- (take_drop k block) at 1. rewrite Es. by rewrite <- !app_assoc. }
  split_and!; [by rewrite <- Es, take_drop|done..| |].
  - intros Hin. rewrite Forall_forall in Hv. by apply (Hv dq).
  - cbn [submatch length Nat.ltb Nat.leb nth group]. do 2 f_equal.
    rewrite Eb at 1.
    replace (0 + k + (7 + length ws + length ws')) with
      (length (take k block ++ str "alias" ++ ws ++ str "=" ++ ws' ++ [dq])).
    + apply slice_mid.
    + rewrite !length_app, length_take. simpl. lia.
Qed.

(** The alias assignment at the first alias of the block names the
    provider. *)
Theorem providerNameOf_alias (pre ws ws' alias post : gostring) :
  blank ws → blank ws' → alias ≠ [] → dq ∉ alias →
  (∀ k, k < length pre →
     occursAt (str "alias")
       (pre ++ str "alias" ++ ws ++ str "=" ++ ws' ++ [dq] ++ alias ++ [dq] ++ post) k
     = false) →
  providerNameOf
    (pre ++ str "alias" ++ ws ++ str "=" ++ ws' ++ [dq] ++ alias ++ [dq] ++ post)
  = str "aws (alias: " ++ alias ++ str ")".
Proof.
  intros H1 H2 Hne Hq Hfirst.
  set (block := pre ++ str "alias" ++ ws ++ str "=" ++ ws' ++ [dq] ++ alias ++ [dq] ++ post).
  assert (Hv : Forall (λ c, notchr dq c = true) alias).
  { apply Forall_forall. intros c Hc. apply notchr_true. by intros ->. }
  assert (Hs : search aliasRegex None 0 block
    = Some (0 + length pre, 0 + length pre + (7 + length ws + length ws') + length alias + 1,
            (Some (0 + length pre + (7 + length ws + length ws')),
             Some (0 + length pre + (7 + length ws + length ws') + length alias)))).
  { apply search_first.
    - unfold block. rewrite length_app. lia.
    - intros j Hj. apply (exec_lit_absent (str "alias")); [done| |by apply Hfirst].
      unfold block. rewrite length_app. lia.
    - unfold block. rewrite drop_app_length, exec_run by reflexivity.
      unfold aliasRegex. rewrite run_lit_app.
      rewrite run_Star_app by first [assumption | reflexivity].
      change (str "=") with ["="%char]. cbn [app].
      rewrite run_One by reflexivity.
      rewrite run_Star_app by first [assumption | reflexivity].
      rewrite run_One by reflexivity. rewrite run_Open.
      rewrite run_Plus_app by first [assumption | reflexivity].
      rewrite run_Close, run_One by reflexivity.
      cbn [run fst snd]. f_equal. f_equal; [simpl; lia|].
      f_equal; f_equal; simpl; lia. }
  unfold providerNameOf, FindStringSubmatch. rewrite Hs.
  cbn [submatch length Nat.ltb Nat.leb nth group]. do 2 f_equal.
  replace (0 + length pre + (7 + length ws + length ws')) with
    (length (pre ++ str "alias" ++ ws ++ str "=" ++ ws' ++ [dq])).
  - unfold block.
    replace (pre ++ str "alias" ++ ws ++ str "=" ++ ws' ++ [dq] ++ alias ++ [dq] ++ post)
      with ((pre ++ str "alias" ++ ws ++ str "=" ++ ws' ++ [dq]) ++ alias ++ [dq] ++ post)
      by by rewrite <- !app_assoc.
    apply slice_mid.
  - rewrite !length_app. simpl. lia.
Qed.

(** ** The outcomes of the scan *)

Lemma providerError_nonempty (content : gostring) (loc : nat * nat) (msg : gostring) :
  providerError content loc = Some msg → msg ≠ [].
Proof.
  unfold providerError. destruct (hasTagsMap _).
  - destruct (findMissingTags _); [done|]. by intros [= <-].
  - by intros [= <-].
Qed.

Lemma records_of_success (content : gostring) (lines : list (nat * nat)) :
  omap (providerError content) lines = [] →
  omap (providerRecord content) lines
  = (λ loc, {| name := providerNameOf (blockOf content loc);
               tags := tagsOf (blockOf content loc) |}) <$> lines.
Proof.
  induction lines as [|loc l IH]; [done|].
  change (omap ?f (loc :: l)) with
    (match f loc with Some y => y :: omap f l | None => omap f l end).
  destruct (providerError content loc) eqn:E; [done|]. intros H.
  unfold providerError, providerRecord in *.
  destruct (hasTagsMap (blockOf content loc)); [|done].
  cbn [fmap list_fmap]. by rewrite IH.
Qed.

(** A scan without error returns one record for each provider found, in the
    order of the text, with the name and the tags of its block; there is at
    least one. *)
Theorem checkAllAwsProviders_success_records (content : gostring)
    (providers : list providerInfo) :
  checkAllAwsProviders content = (providers, None) →
  providers
  = (λ loc, {| name := providerNameOf (blockOf content loc);
               tags := tagsOf (blockOf content loc) |})
    <$> FindAllStringIndex providerRegex content
  ∧ providers ≠ []
  ∧ length providers = length (FindAllStringIndex providerRegex content).
Proof.
  rewrite checkAllAwsProviders_unfold. cbv zeta.
  destruct (FindAllStringIndex providerRegex content) as [|loc l] eqn:El; [done|].
  destruct (omap (providerError content) (loc :: l)) eqn:E; [|done].
  intros H.
  assert (providers = omap (providerRecord content) (loc :: l)) as -> by congruence.
  rewrite (records_of_success content (loc :: l) E).
  split_and!; [done|done|by rewrite length_fmap].
Qed.

(** The scan ends in one of two ways: no record and an error that is not
    empty, or no error and at least one record. *)
Theorem checkAllAwsProviders_outcomes (content : gostring) :
  (∃ err, checkAllAwsProviders content = ([], Some err) ∧ err ≠ [])
  ∨ (∃ providers, checkAllAwsProviders content = (providers, None) ∧ providers ≠ []).
Proof.
  rewrite checkAllAwsProviders_unfold. cbv zeta.
  destruct (FindAllStringIndex providerRegex content) as [|loc l] eqn:El.
  - left. by eexists.
  - destruct (omap (providerError content) (loc :: l)) as [|e errs] eqn:E.
    + right. eexists. split; [done|].
      rewrite (records_of_success content (loc :: l) E). done.
    + left. eexists. split; [done|]. rewrite joinErrors_cons.
      assert (He : e ∈ omap (providerError content) (loc :: l)) by (rewrite E; left).
      apply list_elem_of_omap in He as (x & _ & He).
      apply providerError_nonempty in He. by destruct e.
Qed.

(** ** The tags of a tags map *)

Lemma length_quote (b : bool) : length (quote b) ≤ 1.
Proof. destruct b; simpl; lia. Qed.

Lemma run_One_inv (p : ascii → bool) (re : regex) prev pos (s : gostring) cap r :
  run (One p :: re) prev pos s cap = Some r →
  ∃ c s', s = c :: s' ∧ p c = true ∧ run re (Some c) (S pos) s' cap = Some r.
Proof.
  destruct s as [|c s']; [done|]. cbn [run]. destruct (p c) eqn:E; [|done].
  intros H. by exists c, s'.
Qed.

Lemma run_Quest_inv (re : regex) prev pos (s : gostring) cap r :
  run (Quest (chr dq) :: re) prev pos s cap = Some r →
  ∃ b s', s = quote b ++ s'
    ∧ run re (lastOr prev (quote b)) (pos + length (quote b)) s' cap = Some r.
Proof.
  intros H. destruct s as [|c s'].
  - exists false, []. split; [done|]. cbn [quote length]. by rewrite lastOr_nil, Nat.add_0_r.
  - cbn [run] in H. destruct (chr dq c) eqn:E.
    + apply chr_true in E as <-. exists true, s'. split; [done|].
      cbn [quote length]. rewrite lastOr_cons, lastOr_nil.
      by replace (pos + 1) with (S pos) by lia.
    + exists false, (c :: s'). split; [done|].
      cbn [quote length]. by rewrite lastOr_nil, Nat.add_0_r.
Qed.

Lemma run_Star_eq (p : ascii → bool) (re : regex) prev pos (s : gostring) cap :
  run (Star p :: re) prev pos s cap
  = run re (lastOr prev (takew p s)) (pos + length (takew p s)) (dropw p s) cap.
Proof. done. Qed.

Lemma tagPattern_match prev pos (s : gostring) e cap :
  exec tagPattern prev pos s noCap = Some (e, cap) →
  ∃ ws b1 c w rest,
    s = ws ++ quote b1 ++ c :: w ++ rest
    ∧ blank ws ∧ letter c = true ∧ Forall (λ x, word x = true) w
    ∧ cap = (Some (pos + length (ws ++ quote b1)),
             Some (pos + length (ws ++ quote b1) + length (c :: w))).
Proof.
  rewrite exec_tagPattern. destruct (atLineStart prev); [|done].
  rewrite run_Star_eq. unfold tagKeyPattern. intros H.
  pose proof (takew_dropw space s) as E1. pose proof (Forall_takew space s) as F1.
  set (ws := takew space s) in *. set (s1 := dropw space s) in *. clearbody ws s1.
  apply run_Quest_inv in H as (b1 & s2 & -> & H).
  rewrite run_Open in H. apply run_One_inv in H as (c & s3 & -> & Hc & H).
  rewrite run_Star_eq, run_Close in H.
  pose proof (takew_dropw word s3) as E3. pose proof (Forall_takew word s3) as F3.
  set (w := takew word s3) in *. set (s4 := dropw word s3) in *. clearbody w s4.
  apply run_Quest_inv in H as (b2 & s5 & -> & H).
  rewrite run_Star_eq in H. apply run_One_inv in H as (d & s6 & _ & _ & H).
  cbn [run fst snd] in H.
  exists ws, b1, c, w, (quote b2 ++ s5). split_and!; [|done..|].
  - by rewrite <- E1, <- E3.
  - injection H as _ <-. rewrite length_app. cbn [length]. f_equal; f_equal; lia.
Qed.

(** Every tag returned by extractTags is a tag name: a letter followed by
    letters, digits, underscores or hyphens; in particular it is not empty
    and holds neither white space nor a quote. *)
Theorem extractTags_names (tagBlock : gostring) :
  Forall tagName (extractTags tagBlock).
Proof.
  rewrite extractTags_groups. apply Forall_fmap, Forall_forall.
  intros [[a e] cap] Hin. apply findAll_elem in Hin as (k & -> & Hk & Hx).
  apply tagPattern_match in Hx as (ws & b1 & c & w & rest & Es & _ & Hc & Hw & ->).
  unfold compose. cbn [snd group]. exists c, w. split_and!; [|done..].
  rewrite <- (take_drop k tagBlock) at 1. rewrite Es.
  replace (take k tagBlock ++ ws ++ quote b1 ++ c :: w ++ rest)
    with ((take k tagBlock ++ ws ++ quote b1) ++ (c :: w) ++ rest)
    by by rewrite <- !app_assoc.
  replace (0 + k + length (ws ++ quote b1))
    with (length (take k tagBlock ++ ws ++ quote b1))
    by (rewrite !length_app, length_take; lia).
  apply slice_mid.
Qed.

Lemma length_filter_split {A : Type} (P : A → Prop) `{!∀ x, Decision (P x)}
    (l : list A) :
  length (filter P l) + length (filter (λ x, ¬ P x) l) = length l.
Proof.
  induction l as [|x l IH]; [done|]. rewrite !filter_cons.
  destruct (decide (P x)).
  - rewrite decide_False by tauto. simpl. lia.
  - rewrite decide_True by done. simpl. lia.
Qed.

Lemma findMissingTags_length (foundTags : list gostring) :
  8 ≤ length (findMissingTags foundTags) + length foundTags.
Proof.
  rewrite findMissingTags_filter.
  pose proof (length_filter_split (λ r, r ∈ foundTags) requiredTags) as H.
  change (length requiredTags) with 8 in H.
  assert (length (filter (λ r, r ∈ foundTags) requiredTags) ≤ length foundTags);
    [|lia].
  apply submseteq_length, NoDup_submseteq.
  - apply NoDup_filter, NoDup_requiredTags.
  - intros x Hx. by apply list_elem_of_filter in Hx as [Hx _].
Qed.

(** Each found tag accounts for one required tag at most: with [n] tags
    found, eight less [n] tags at least are missing, and never more than
    eight. *)
Theorem findMissingTags_count (foundTags : list gostring) :
  8 - length foundTags ≤ length (findMissingTags foundTags) ≤ 8.
Proof.
  pose proof (findMissingTags_length foundTags). split; [lia|].
  rewrite findMissingTags_filter. apply (length_filter _ requiredTags).
Qed.

(** A tags map without a newline gives one tag at most, so that seven
    required tags at least are missing. *)
Theorem extractTags_one_line (tagBlock : gostring) :
  unbroken tagBlock →
  length (extractTags tagBlock) ≤ 1
  ∧ 7 ≤ length (findMissingTags (extractTags tagBlock)).
Proof.
  intros H.
  assert (Hl : length (extractTags tagBlock) ≤ 1).
  { rewrite extractTags_groups. unfold tagPattern. rewrite findAll_last_line.
    - rewrite length_fmap. destruct (exec _ _ _ _ _) as [[]|]; simpl; lia.
    - exact H.
    - fold tagPattern. intros e cap E. by apply tagPattern_bounds in E as [E _]. }
  split; [done|]. pose proof (findMissingTags_length (extractTags tagBlock)). lia.
Qed.

(** ** The tags map of a block *)

Lemma tagsRegex_interior prev pos (ws1 ws2 ws3 ws4 interior post : gostring) :
  blank ws1 → blank ws2 → blank ws3 → blank ws4 →
  interior ≠ [] → rbrace ∉ interior →
  exec tagsRegex prev pos (tagsMapText ws1 ws2 ws3 ws4 interior ++ post) noCap
  = Some (pos + length (tagsMapText ws1 ws2 ws3 ws4 interior),
          (Some (pos + length (tagsMapText ws1 ws2 ws3 ws4 []) - 1),
           Some (pos + length (tagsMapText ws1 ws2 ws3 ws4 []) - 1 + length interior))).
Proof.
  intros H1 H2 H3 H4 Hne Hr.
  assert (Hv : Forall (λ c, notchr rbrace c = true) interior).
  { apply Forall_forall. intros c Hc. apply notchr_true. by intros ->. }
  rewrite exec_run by reflexivity.
  unfold tagsRegex, tagsMapText. rewrite <- !app_assoc.
  rewrite run_lit_app. cbn [app].
  rewrite run_Star_app by first [assumption | reflexivity].
  rewrite run_One by reflexivity.
  rewrite run_Star_app by first [assumption | reflexivity].
  rewrite (run_lit_app (str "tags")).
  rewrite run_Star_app by first [assumption | reflexivity].
  change (str "=") with ["="%char]. cbn [app].
  rewrite run_One by reflexivity.
  rewrite run_Star_app by first [assumption | reflexivity].
  rewrite run_One by reflexivity. rewrite run_Open.
  rewrite run_Plus_app by first [assumption | reflexivity].
  rewrite run_Close, run_One by reflexivity.
  cbn [run fst snd]. unfold tagsMapText.
  repeat (rewrite length_app; cbn [length]). change (length (str "=")) with 1.
  f_equal. f_equal; [lia|]. f_equal; f_equal; lia.
Qed.

(** In a block whose first default_tags opens a tags map, the tags searched
    are those of the text between the brace that opens the map and the first
    closing brace after it. *)
Theorem tagsOf_interior (pre ws1 ws2 ws3 ws4 interior post : gostring) :
  blank ws1 → blank ws2 → blank ws3 → blank ws4 →
  interior ≠ [] → rbrace ∉ interior →
  (∀ k, k < length pre →
     occursAt (str "default_tags")
       (pre ++ tagsMapText ws1 ws2 ws3 ws4 interior ++ post) k = false) →
  hasTagsMap (pre ++ tagsMapText ws1 ws2 ws3 ws4 interior ++ post) = true
  ∧ nth 1 (FindStringSubmatch tagsRegex
             (pre ++ tagsMapText ws1 ws2 ws3 ws4 interior ++ post)) [] = interior
  ∧ tagsOf (pre ++ tagsMapText ws1 ws2 ws3 ws4 interior ++ post) = extractTags interior.
Proof.
  intros H1 H2 H3 H4 Hne Hr Hfirst.
  set (block := pre ++ tagsMapText ws1 ws2 ws3 ws4 interior ++ post).
  assert (Hs : search tagsRegex None 0 block
    = Some (0 + length pre,
            0 + length pre + length (tagsMapText ws1 ws2 ws3 ws4 interior),
            (Some (0 + length pre + length (tagsMapText ws1 ws2 ws3 ws4 []) - 1),
             Some (0 + length pre + length (tagsMapText ws1 ws2 ws3 ws4 []) - 1
                   + length interior)))).
  { apply search_first.
    - unfold block. rewrite length_app. lia.
    - intros j Hj. apply (exec_lit_absent (str "default_tags")); [done| |by apply Hfirst].
      unfold block. rewrite length_app. lia.
    - unfold block. rewrite drop_app_length. by apply tagsRegex_interior. }
  assert (Hg : nth 1 (FindStringSubmatch tagsRegex block) [] = interior).
  { unfold FindStringSubmatch. rewrite Hs. cbn [submatch nth group].
    unfold block, tagsMapText. repeat (rewrite length_app; cbn [length]).
    set (u := pre ++ str "default_tags" ++ ws1 ++ [lbrace] ++ ws2 ++ str "tags" ++ ws3
              ++ str "=" ++ ws4 ++ [lbrace]).
    replace (pre ++ (str "default_tags" ++ ws1 ++ [lbrace] ++ ws2 ++ str "tags" ++ ws3
              ++ str "=" ++ ws4 ++ [lbrace] ++ interior ++ [rbrace]) ++ post)
      with (u ++ interior ++ [rbrace] ++ post)
      by (unfold u; by rewrite <- !app_assoc).
    match goal with |- slice _ ?a ?b = _ =>
      replace a with (length u) by (unfold u; rewrite !length_app; simpl; lia);
      replace b with (length u + length interior)
        by (unfold u; rewrite !length_app; simpl; lia) end.
    apply slice_mid. }
  split_and!; [|done|by unfold tagsOf; rewrite Hg].
  unfold hasTagsMap, FindStringSubmatch. by rewrite Hs.
Qed.

(** ** The namespace of a branch *)

Lemma run_Plus_inv (p : ascii → bool) (re : regex) prev pos (s : gostring) cap r :
  run (Plus p :: re) prev pos s cap = Some r →
  ∃ v x, s = v ++ x ∧ v ≠ [] ∧ Forall (λ c, p c = true) v
    ∧ run re (lastOr prev v) (pos + length v) x cap = Some r.
Proof.
  destruct s as [|c s']; [done|]. cbn [run]. destruct (p c) eqn:E; [|done].
  intros H. exists (c :: takew p s'), (dropw p s'). split_and!; [|done| |].
  - by rewrite <- app_comm_cons, takew_dropw.
  - constructor; [done|apply Forall_takew].
  - rewrite lastOr_cons. cbn [length].
    by replace (pos + S (length (takew p s'))) with (S pos + length (takew p s')) by lia.
Qed.

Lemma namespacePattern_match prev pos (s : gostring) e cap :
  exec namespacePattern prev pos s noCap = Some (e, cap) →
  ∃ ns post,
    s = (basePath ++ str "/") ++ ns ++ str "/" ++ post
    ∧ ns ≠ [] ∧ ("/"%char ∉ ns)
    ∧ cap = (Some (pos + length (basePath ++ str "/")),
             Some (pos + length (basePath ++ str "/") + length ns)).
Proof.
  rewrite exec_run by reflexivity. unfold namespacePattern. intros H.
  apply run_lit_inv in H as (s1 & -> & H). rewrite run_Open in H.
  apply run_Plus_inv in H as (ns & s2 & -> & Hne & Hns & H).
  rewrite run_Close in H. apply run_One_inv in H as (c & post & -> & Hc & H).
  apply chr_true in Hc as <-. cbn [run fst snd] in H. injection H as _ <-.
  exists ns, post. split_and!; [done|done| |done].
  intros Hin. rewrite Forall_forall in Hns. specialize (Hns _ Hin).
  by apply notchr_true in Hns.
Qed.

Lemma namespacePattern_found prev pos (ns post : gostring) :
  ns ≠ [] → "/"%char ∉ ns →
  exec namespacePattern prev pos ((basePath ++ str "/") ++ ns ++ str "/" ++ post) noCap
  = Some (S (pos + length (basePath ++ str "/") + length ns),
          (Some (pos + length (basePath ++ str "/")),
           Some (pos + length (basePath ++ str "/") + length ns))).
Proof.
  intros Hne Hns. rewrite exec_run by reflexivity. unfold namespacePattern.
  rewrite run_lit_app, run_Open.
  rewrite run_Plus_app; [|done| |done].
  - rewrite run_Close. change (str "/" ++ post) with ("/"%char :: post).
    by rewrite run_One by reflexivity.
  - apply Forall_forall. intros c Hc. apply notchr_true. by intros ->.
Qed.

(** When git diff succeeds, the namespace is the text between the first
    occurrence of the base path with its slash and the next slash, provided
    this text is not empty. *)
Theorem getNamespace_first (git : command) (branch pre ns post : gostring) :
  let cmd := git [str "diff"; str "main..." ++ branch; str "--name-only"] in
  failure cmd = None →
  output cmd = pre ++ (basePath ++ str "/") ++ ns ++ str "/" ++ post →
  ns ≠ [] → "/"%char ∉ ns →
  (∀ k, k < length pre → occursAt (basePath ++ str "/") (output cmd) k = false) →
  getNamespace git branch = (ns, None).
Proof.
  intros cmd Hf Ho Hne Hns Hfirst. unfold getNamespace. fold cmd. rewrite Hf.
  assert (Hs : search namespacePattern None 0 (output cmd)
    = Some (0 + length pre,
            S (0 + length pre + length (basePath ++ str "/") + length ns),
            (Some (0 + length pre + length (basePath ++ str "/")),
             Some (0 + length pre + length (basePath ++ str "/") + length ns)))).
  { apply search_first.
    - rewrite Ho, length_app. lia.
    - intros j Hj. apply (exec_lit_absent (basePath ++ str "/")); [done| |by apply Hfirst].
      rewrite Ho, length_app. lia.
    - rewrite Ho, drop_app_length. by apply namespacePattern_found. }
  unfold FindStringSubmatch. rewrite Hs. cbn [submatch length nth group].
  change (1 <? 2) with true. cbv iota. f_equal. rewrite Ho.
  replace (pre ++ (basePath ++ str "/") ++ ns ++ str "/" ++ post)
    with ((pre ++ basePath ++ str "/") ++ ns ++ str "/" ++ post)
    by by rewrite <- !app_assoc.
  replace (0 + length pre + length (basePath ++ str "/"))
    with (length (pre ++ basePath ++ str "/")) by (rewrite !length_app; simpl; lia).
  apply slice_mid.
Qed.

(** getNamespace ends in one of three ways: the error of git diff with the
    output of the command; a namespace, not empty and free of slashes, that
    stands in the output between the base path with its slash and a slash;
    or the error that no namespace could be extracted, which names the
    branch.  With an error the namespace is empty. *)
Theorem getNamespace_cases (git : command) (branch : gostring) :
  let cmd := git [str "diff"; str "main..." ++ branch; str "--name-only"] in
  (∃ err, failure cmd = Some err
     ∧ getNamespace git branch
       = ([], Some (str "git diff failed: " ++ err ++ str " - " ++ output cmd)))
  ∨ (∃ pre ns post,
       failure cmd = None
       ∧ output cmd = pre ++ (basePath ++ str "/") ++ ns ++ str "/" ++ post
       ∧ ns ≠ [] ∧ ("/"%char ∉ ns)
       ∧ getNamespace git branch = (ns, None))
  ∨ (failure cmd = None
     ∧ getNamespace git branch
       = ([], Some (str "could not extract namespace from changed files in branch: "
                      ++ branch))).
Proof.
  intros cmd. unfold getNamespace. fold cmd.
  destruct (failure cmd) as [err|] eqn:Hf; [left; by exists err|]. right.
  unfold FindStringSubmatch.
  destruct (search namespacePattern None 0 (output cmd)) as [[[a e] cap]|] eqn:E;
    [left|by right].
  apply search_Some in E as (k & -> & Hk & E & _).
  apply namespacePattern_match in E as (ns & post & Es & Hne & Hns & ->).
  exists (take k (output cmd)), ns, post.
  assert (Ho : output cmd
               = take k (output cmd) ++ (basePath ++ str "/") ++ ns ++ str "/" ++ post).
  { by rewrite <- Es, take_drop. }
  split_and!; [done|done|done|done|].
  cbn [submatch length nth group]. change (1 <? 2) with true. cbv iota. f_equal.
  rewrite Ho at 1.
  replace (take k (output cmd) ++ (basePath ++ str "/") ++ ns ++ str "/" ++ post)
    with ((take k (output cmd) ++ basePath ++ str "/") ++ ns ++ str "/" ++ post)
    by by rewrite <- !app_assoc.
  replace (0 + k + length (basePath ++ str "/"))
    with (length (take k (output cmd) ++ basePath ++ str "/"))
    by (rewrite !length_app, length_take; simpl; lia).
  apply slice_mid.
Qed.

(** ** The path of the resource file *)

Lemma elements_plain (u : gostring) :
  "/"%char ∉ u → filepath.elements u = [u].
Proof.
  induction u as [|c u IH]; [done|]. intros H.
  apply not_elem_of_cons in H as [Hc Hu]. cbn [filepath.elements].
  assert (chr "/" c = false) as -> by (apply chr_false; congruence).
  by rewrite IH.
Qed.

Lemma elements_slash (u rest : gostring) :
  "/"%char ∉ u →
  filepath.elements (u ++ "/"%char :: rest) = u :: filepath.elements rest.
Proof.
  induction u as [|c u IH]; [done|]. intros H.
  apply not_elem_of_cons in H as [Hc Hu]. cbn [app filepath.elements].
  assert (chr "/" c = false) as -> by (apply chr_false; congruence).
  by rewrite IH.
Qed.

Lemma keep_plain (rooted : bool) (out : list gostring) (elem : gostring) :
  elem ≠ [] → elem ≠ str "." → elem ≠ str ".." →
  filepath.keep rooted out elem = elem :: out.
Proof.
  intros H1 H2 H3. unfold filepath.keep, filepath.isDot, filepath.isDotDot.
  by rewrite !bool_decide_eq_false_2.
Qed.

Lemma Clean_relative (path p : gostring) (c : ascii) (out : list gostring) :
  path = c :: p → chr "/" c = false →
  foldl (filepath.keep false) [] (filepath.elements path) = out →
  stringsJoin (rev out) (str "/") ≠ [] →
  filepath.Clean path = stringsJoin (rev out) (str "/").
Proof.
  intros -> Hc Ho Hne. unfold filepath.Clean. rewrite Hc, Ho. cbn [app].
  by destruct (stringsJoin (rev out) (str "/")).
Qed.

Lemma Join_resourcePath (namespace : gostring) :
  namespace ≠ [] → "/"%char ∉ namespace →
  namespace ≠ str "." → namespace ≠ str ".." →
  filepath.Join [basePath; namespace; str "resources"; str "main.tf"]
  = resourceFile namespace.
Proof.
  intros H1 H2 H3 H4.
  change (filepath.Join [basePath; namespace; str "resources"; str "main.tf"])
    with (filepath.Clean
            (str "namespaces" ++ "/"%char ::
             str "live.cloud-platform.service.justice.gov.uk" ++ "/"%char ::
             namespace ++ "/"%char :: str "resources" ++ "/"%char :: str "main.tf")).
  etrans; [eapply (Clean_relative _ _ _
    [str "main.tf"; str "resources"; namespace;
     str "live.cloud-platform.service.justice.gov.uk"; str "namespaces"]);
    [reflexivity|reflexivity| |]|].
  3: reflexivity.
  - rewrite !elements_slash, elements_plain;
      [|by apply (bool_decide_unpack _); vm_compute..|done
       |by apply (bool_decide_unpack _); vm_compute
       |by apply (bool_decide_unpack _); vm_compute].
    cbn [foldl]. rewrite !keep_plain; done.
  - cbn [rev app stringsJoin]. by destruct namespace.
Qed.

(** ** The run of the program *)

Lemma getNamespace_ok (git : command) (branch ns : gostring) :
  getNamespace git branch = (ns, None) → ns ≠ [] ∧ "/"%char ∉ ns.
Proof.
  unfold getNamespace.
  destruct (failure _); [done|]. unfold FindStringSubmatch.
  destruct (search namespacePattern None 0 _) as [[[a e] cap]|] eqn:E; [|done].
  apply search_Some in E as (k & -> & Hk & E & _).
  apply namespacePattern_match in E as (ns' & post & Es & Hne & Hns & ->).
  cbn [submatch length nth group]. change (1 <? 2) with true. cbv iota.
  intros H. assert (ns = ns') as ->; [|done].
  assert (Hg : slice (output (git [str "diff"; str "main..." ++ branch; str "--name-only"]))
                 (0 + k + length (basePath ++ str "/"))
                 (0 + k + length (basePath ++ str "/") + length ns') = ns) by congruence.
  rewrite <- Hg.
  rewrite <- (take_drop k (output _)) at 1. rewrite Es.
  set (o := output _) in *.
  replace (take k o ++ (basePath ++ str "/") ++ ns' ++ str "/" ++ post)
    with ((take k o ++ basePath ++ str "/") ++ ns' ++ str "/" ++ post)
    by by rewrite <- !app_assoc.
  replace (0 + k + length (basePath ++ str "/"))
    with (length (take k o ++ basePath ++ str "/"))
    by (rewrite !length_app, length_take; simpl; lia).
  apply slice_mid.
Qed.

Lemma scan_ok_compliant (content : gostring) (providers : list providerInfo) :
  checkAllAwsProviders content = (providers, None) →
  providers ≠ [] ∧ Forall compliant providers.
Proof.
  rewrite checkAllAwsProviders_unfold. cbv zeta.
  destruct (FindAllStringIndex providerRegex content) as [|loc l] eqn:El; [done|].
  destruct (omap (providerError content) (loc :: l)) eqn:E; [|done].
  intros H.
  assert (providers = omap (providerRecord content) (loc :: l)) as -> by congruence.
  destruct (no_errors_compliant content (loc :: l) E) as [Hc Hl].
  split; [|done]. intros Hnil. by rewrite Hnil in Hl.
Qed.

(** A run ends in one of four ways.  When flag.Parse refuses an argument:
    its message and the usage on the error stream, status 2.  When help is
    asked for, with -h or with a help flag that is not defined: the usage on
    the error stream, status 0.  On an error: status 1, an error stream
    that starts with Error: and an output stream that is empty or holds the
    searching line alone.  Otherwise: status 0, an empty error stream, and
    the searching line followed by the report of at least one provider. *)
Theorem main_outcome (call : invocation) :
  (∃ msg, parseFlags call = flag.Failed msg
     ∧ main call
       = {| stdout := [];
            stderr := msg ++ [newline] ++ printUsage (arg0 call) (flagDefaults call);
            exitCode := 2 |})
  ∨ ((parseFlags call = flag.ErrHelp
      ∨ ∃ values, parseFlags call = flag.Parsed values ∧ help values = true)
     ∧ main call
       = {| stdout := []; stderr := printUsage (arg0 call) (flagDefaults call);
            exitCode := 0 |})
  ∨ (∃ values, parseFlags call = flag.Parsed values ∧ help values = false
     ∧ exitCode (main call) = 1
     ∧ (∃ msg, stderr (main call) = str "Error: " ++ msg)
     ∧ (stdout (main call) = []
        ∨ ∃ path, stdout (main call) = searchingLine path (branchName values)))
  ∨ (∃ values, parseFlags call = flag.Parsed values ∧ help values = false
     ∧ exitCode (main call) = 0 ∧ stderr (main call) = []
     ∧ ∃ path providers,
         stdout (main call)
         = searchingLine path (branchName values) ++ successLines providers
         ∧ providers ≠ []).
Proof.
  unfold main. destruct (parseFlags call) as [values| |msg].
  2: { right; left. split; [by left|done]. }
  2: { left. by exists msg. }
  right. destruct (help values) eqn:Hh; [left; split; [right; by exists values|done]|].
  right.
  case_bool_decide as Hb;
    [left; exists values; split_and!; [done|done|done|by eexists|by left]|].
  destruct (getNamespace _ _) as [ns [err|]];
    [left; exists values; split_and!; [done|done|done|by eexists|by left]|].
  destruct (getFileFromBranch _ _ _) as [content [err|]];
    [left; exists values; split_and!; [done|done|done|by eexists|right; by eexists]|].
  destruct (checkAllAwsProviders content) as [providers [err|]] eqn:Ec;
    [left; exists values; split_and!; [done|done|done|by eexists|right; by eexists]|].
  right. apply scan_ok_compliant in Ec as [Hne _].
  exists values. split_and!; [done..|]. eexists _, providers. split; [|done].
  reflexivity.
Qed.

(** A run whose flags are read without -h and that ends with status 0 has
    found a namespace, read the resource file of that namespace on the
    branch and met at least one provider in it, each with the eight required
    tags. *)
Theorem main_success (call : invocation) (values : flagValues) :
  parseFlags call = flag.Parsed values →
  help values = false → exitCode (main call) = 0 →
  ∃ namespace content providers,
    branchName values ≠ []
    ∧ getNamespace (git call) (branchName values) = (namespace, None)
    ∧ getFileFromBranch (git call) (branchName values)
        (filepath.Join [basePath; namespace; str "resources"; str "main.tf"])
      = (content, None)
    ∧ checkAllAwsProviders content = (providers, None)
    ∧ providers ≠ [] ∧ Forall compliant providers.
Proof.
  unfold main. intros -> -> H.
  case_bool_decide as Hb; [done|].
  destruct (getNamespace _ _) as [ns [err|]] eqn:En; [done|].
  destruct (getFileFromBranch _ _ _) as [content [err|]] eqn:Ef; [done|].
  destruct (checkAllAwsProviders content) as [providers [err|]] eqn:Ec; [done|].
  exists ns, content, providers. split_and!; [done..| |];
    by apply scan_ok_compliant in Ec as [? ?].
Qed.

(** Once the flags are read, without -h and with a branch, and with a
    namespace other than a dot or two dots, the file scanned is
    resources/main.tf of the namespace under the base path, as git show
    gives it on the branch: the status is 0 when its scan returns no error;
    when git show fails or the scan returns an error, the status is 1 and
    the error stream holds the error. *)
Theorem main_resource_file (call : invocation) (values : flagValues)
    (namespace : gostring) :
  parseFlags call = flag.Parsed values →
  help values = false → branchName values ≠ [] →
  getNamespace (git call) (branchName values) = (namespace, None) →
  namespace ≠ str "." → namespace ≠ str ".." →
  let cmd :=
    git call [str "show"; branchName values ++ str ":" ++ resourceFile namespace] in
  let searching := searchingLine (resourceFile namespace) (branchName values) in
  main call =
  match failure cmd with
  | Some err =>
    {| stdout := searching;
       stderr := str "Error: Could not read file from branch: git show failed: "
                 ++ err ++ str " - " ++ output cmd ++ [newline];
       exitCode := 1 |}
  | None =>
    match checkAllAwsProviders (output cmd) with
    | (_, Some err) =>
      {| stdout := searching; stderr := str "Error: " ++ err ++ [newline]; exitCode := 1 |}
    | (providers, None) =>
      {| stdout := searching ++ successLines providers; stderr := []; exitCode := 0 |}
    end
  end.
Proof.
  intros Hp Hh Hb Hn H1 H2 cmd searching. unfold main. rewrite Hp, Hh, Hn.
  rewrite bool_decide_eq_false_2 by done.
  destruct (getNamespace_ok _ _ _ Hn) as [Hne Hns].
  rewrite Join_resourcePath by done. unfold getFileFromBranch. fold cmd.
  destruct (failure cmd) as [err|].
  - f_equal. by rewrite <- !app_assoc.
  - destruct (checkAllAwsProviders (output cmd)) as [providers [err|]]; [done|].
    reflexivity.
Qed.

(** A flag that is not defined, other than help, ends the run before
    anything is read: status 2, nothing on the output stream, and the
    message of the flag package followed by the usage on the error stream.
    The flag -namespace of the examples of the usage is such a flag. *)
Theorem main_undefined_flag (call : invocation) (name : gostring)
    (value : option gostring) (rest : list gostring) :
  args call = (str "-" ++ name ++ from_option (λ v, str "=" ++ v) [] value) :: rest →
  name ≠ [] → Forall (λ c, c ≠ "-"%char ∧ c ≠ "="%char) name →
  name ≠ str "h" → name ≠ str "branch" → name ≠ str "help" →
  main call
  = {| stdout := [];
       stderr := str "flag provided but not defined: -" ++ name ++ [newline]
                 ++ printUsage (arg0 call) (flagDefaults call);
       exitCode := 2 |}.
Proof.
  intros Ha Hne Hn H1 H2 H3. unfold main, parseFlags. rewrite Ha.
  destruct name as [|n0 name']; [done|]. apply Forall_cons in Hn as [[Hd He] Hn].
  assert (Hcut : flag.cut (name' ++ from_option (λ v, str "=" ++ v) [] value)
                 = (name', value)).
  { clear -Hn. induction Hn as [|c l [_ Hc] Hl IH].
    - destruct value as [v|]; [done|]. done.
    - cbn [app flag.cut]. rewrite IH.
      by assert (chr "=" c = false) as -> by (apply chr_false; congruence). }
  cbn [flag.Parse].
  assert (Hcl : flag.classify
                  (str "-" ++ (n0 :: name') ++ from_option (λ v, str "=" ++ v) [] value)
                = flag.Flag (n0 :: name') value).
  { change (str "-" ++ (n0 :: name') ++ ?x) with ("-"%char :: n0 :: (name' ++ x)).
    assert (E1 : chr "-" n0 = false) by (apply chr_false; congruence).
    assert (E2 : chr "=" n0 = false) by (apply chr_false; congruence).
    cbn [flag.classify]. change (chr "-" "-") with true. cbn [negb].
    rewrite E1. cbn [andb]. cbv iota. rewrite E1, E2. cbn [orb]. by rewrite Hcut. }
  rewrite Hcl. rewrite !bool_decide_eq_false_2 by done. reflexivity.
Qed.

(** ** The further properties at sample texts *)

Lemma extractProviderBlock_balanced_witness :
  braceFree (txt "provider 'aws' ")
  ∧ balanced (str " a { b } c ")
  ∧ extractProviderBlock
      (txt "provider 'aws' " ++ lbrace :: str " a { b } c " ++ rbrace :: str " provider")
    = txt "provider 'aws' " ++ lbrace :: str " a { b } c " ++ [rbrace].
Proof.
  assert (H1 : braceFree (txt "provider 'aws' ")) by (repeat constructor).
  assert (H2 : balanced (str " a { b } c ")).
  { do 3 (apply balanced_byte; [reflexivity|reflexivity|]).
    apply (balanced_block (str " b ") (str " c ")).
    - do 3 (apply balanced_byte; [reflexivity|reflexivity|]). apply balanced_nil.
    - do 3 (apply balanced_byte; [reflexivity|reflexivity|]). apply balanced_nil. }
  split_and!; [done..|]. by apply extractProviderBlock_balanced.
Defined.

Lemma findMissingTags_set_witness :
  (∀ t, t ∈ [str "owner"; str "namespace"; str "owner"]
        ↔ t ∈ [str "namespace"; str "owner"])
  ∧ findMissingTags [str "owner"; str "namespace"; str "owner"]
    = findMissingTags [str "namespace"; str "owner"].
Proof.
  assert (H : ∀ t, t ∈ [str "owner"; str "namespace"; str "owner"]
                   ↔ t ∈ [str "namespace"; str "owner"]).
  { intros t. rewrite !elem_of_cons, !elem_of_nil. tauto. }
  split; [done|]. by apply findMissingTags_set.
Defined.

Lemma findMissingTags_antitone_witness :
  [str "owner"] ⊆ [str "namespace"; str "owner"]
  ∧ sublist (findMissingTags [str "namespace"; str "owner"])
            (findMissingTags [str "owner"]).
Proof.
  assert (H : [str "owner"] ⊆ [str "namespace"; str "owner"]).
  { intros t. rewrite !elem_of_cons, !elem_of_nil. tauto. }
  split; [done|]. by apply findMissingTags_antitone.
Defined.

Lemma joinErrors_lines_witness :
  [noDefaultTagsMessage (str "aws (default)");
   missingTagsMessage (str "aws (alias: replica)") [str "slack-channel"]] ≠ []
  ∧ Forall unbroken
      [noDefaultTagsMessage (str "aws (default)");
       missingTagsMessage (str "aws (alias: replica)") [str "slack-channel"]]
  ∧ lines (joinErrors
             [noDefaultTagsMessage (str "aws (default)");
              missingTagsMessage (str "aws (alias: replica)") [str "slack-channel"]])
    = [noDefaultTagsMessage (str "aws (default)");
       missingTagsMessage (str "aws (alias: replica)") [str "slack-channel"]].
Proof.
  assert (H : Forall unbroken
      [noDefaultTagsMessage (str "aws (default)");
       missingTagsMessage (str "aws (alias: replica)") [str "slack-channel"]]).
  { apply (bool_decide_unpack _). by vm_compute. }
  split_and!; [done|done|]. by apply joinErrors_lines.
Defined.

Lemma providerNameOf_alias_witness :
  blank (str " ") ∧ str "replica" ≠ [] ∧ (dq ∉ str "replica")
  ∧ (∀ k, k < 2 → occursAt (str "alias") aliasBlock k = false)
  ∧ providerNameOf aliasBlock = str "aws (alias: replica)".
Proof.
  assert (H1 : blank (str " ")) by (repeat constructor).
  assert (H2 : dq ∉ str "replica") by (apply (bool_decide_unpack _); by vm_compute).
  assert (H3 : ∀ k, k < 2 → occursAt (str "alias") aliasBlock k = false).
  { intros k Hk. do 2 (destruct k as [|k]; [reflexivity|]). lia. }
  split_and!; [done..|].
  by apply (providerNameOf_alias (str "{ ") (str " ") (str " ") (str "replica")
              [newline; rbrace]).
Defined.

Lemma checkAllAwsProviders_success_records_witness :
  checkAllAwsProviders manyLinesScenario
  = ([{| name := str "aws (default)"; tags := allTags |}], None)
  ∧ [{| name := str "aws (default)"; tags := allTags |}]
    = (λ loc, {| name := providerNameOf (blockOf manyLinesScenario loc);
                 tags := tagsOf (blockOf manyLinesScenario loc) |})
      <$> FindAllStringIndex providerRegex manyLinesScenario
  ∧ length [{| name := str "aws (default)"; tags := allTags |}]
    = length (FindAllStringIndex providerRegex manyLinesScenario).
Proof.
  assert (H : checkAllAwsProviders manyLinesScenario
              = ([{| name := str "aws (default)"; tags := allTags |}], None))
    by (vm_compute; reflexivity).
  destruct (checkAllAwsProviders_success_records manyLinesScenario _ H) as (R1 & _ & R2).
  by split_and!.
Defined.

Lemma extractTags_one_line_witness :
  unbroken (txt " business-unit = 'x' application = 'y' owner = 'z' ")
  ∧ length (extractTags (txt " business-unit = 'x' application = 'y' owner = 'z' ")) ≤ 1
  ∧ 7 ≤ length (findMissingTags
                  (extractTags (txt " business-unit = 'x' application = 'y' owner = 'z' "))).
Proof.
  assert (H : unbroken (txt " business-unit = 'x' application = 'y' owner = 'z' ")).
  { apply (bool_decide_unpack _). by vm_compute. }
  split; [done|]. by apply extractTags_one_line.
Defined.

Lemma tagsOf_interior_witness :
  blank (str " ") ∧ txt "
owner = 'z'
" ≠ [] ∧ (rbrace ∉ txt "
owner = 'z'
")
  ∧ (∀ k, k < 17 → occursAt (str "default_tags") ownerBlock k = false)
  ∧ hasTagsMap ownerBlock = true
  ∧ tagsOf ownerBlock = extractTags (txt "
owner = 'z'
").
Proof.
  assert (H1 : blank (str " ")) by (repeat constructor).
  assert (H2 : rbrace ∉ txt "
owner = 'z'
") by (apply (bool_decide_unpack _); by vm_compute).
  assert (H3 : ∀ k, k < 17 → occursAt (str "default_tags") ownerBlock k = false).
  { intros k Hk. do 17 (destruct k as [|k]; [reflexivity|]). lia. }
  split_and!; [done..| |];
    by apply (tagsOf_interior (txt "provider 'aws' { ") (str " ") (str " ") (str " ")
                (str " ") (txt "
owner = 'z'
") (str " } }")).
Defined.

Lemma getNamespace_first_witness :
  failure (sampleGit {| output := []; failure := None |}
             [str "diff"; str "main..." ++ str "my-branch"; str "--name-only"]) = None
  ∧ str "my-ns" ≠ [] ∧ ("/"%char ∉ str "my-ns")
  ∧ (∀ k, k < 10 →
       occursAt (basePath ++ str "/")
         (output (sampleGit {| output := []; failure := None |}
                    [str "diff"; str "main..." ++ str "my-branch"; str "--name-only"])) k
       = false)
  ∧ getNamespace (sampleGit {| output := []; failure := None |}) (str "my-branch")
    = (str "my-ns", None).
Proof.
  assert (H2 : "/"%char ∉ str "my-ns") by (apply (bool_decide_unpack _); by vm_compute).
  assert (H3 : ∀ k, k < 10 →
       occursAt (basePath ++ str "/")
         (output (sampleGit {| output := []; failure := None |}
                    [str "diff"; str "main..." ++ str "my-branch"; str "--name-only"])) k
       = false).
  { intros k Hk. do 10 (destruct k as [|k]; [reflexivity|]). lia. }
  split_and!; [done..|].
  by apply (getNamespace_first _ _ (str "README.md
") (str "my-ns") (str "resources/main.tf
")).
Defined.

Lemma main_success_witness :
  parseFlags (sampleCall {| output := manyLinesScenario; failure := None |})
  = flag.Parsed {| help := false; branchName := str "my-branch" |}
  ∧ exitCode (main (sampleCall {| output := manyLinesScenario; failure := None |})) = 0
  ∧ ∃ namespace content providers,
      getNamespace (sampleGit {| output := manyLinesScenario; failure := None |})
        (str "my-branch") = (namespace, None)
      ∧ checkAllAwsProviders content = (providers, None)
      ∧ Forall compliant providers.
Proof.
  assert (Hp : parseFlags (sampleCall {| output := manyLinesScenario; failure := None |})
               = flag.Parsed {| help := false; branchName := str "my-branch" |})
    by (vm_compute; reflexivity).
  assert (H : exitCode (main (sampleCall {| output := manyLinesScenario; failure := None |}))
              = 0) by (vm_compute; reflexivity).
  split_and!; [done..|].
  destruct (main_success (sampleCall {| output := manyLinesScenario; failure := None |})
              _ Hp eq_refl H)
    as (ns & content & providers & _ & Hn & _ & Hc & _ & Hf).
  by exists ns, content, providers.
Defined.

Lemma main_resource_file_witness :
  parseFlags (sampleCall {| output := threeProviders; failure := None |})
  = flag.Parsed {| help := false; branchName := str "my-branch" |}
  ∧ getNamespace (sampleGit {| output := threeProviders; failure := None |})
      (str "my-branch")
    = (str "my-ns", None)
  ∧ main (sampleCall {| output := threeProviders; failure := None |})
    = {| stdout := searchingLine (resourceFile (str "my-ns")) (str "my-branch");
         stderr := str "Error: "
                   ++ noDefaultTagsMessage (str "aws (default)") ++ [newline]
                   ++ missingTagsMessage (str "aws (alias: replica)")
                        [str "slack-channel"]
                   ++ [newline];
         exitCode := 1 |}.
Proof.
  assert (Hp : parseFlags (sampleCall {| output := threeProviders; failure := None |})
               = flag.Parsed {| help := false; branchName := str "my-branch" |})
    by (vm_compute; reflexivity).
  assert (H : getNamespace (sampleGit {| output := threeProviders; failure := None |})
                (str "my-branch") = (str "my-ns", None)) by (vm_compute; reflexivity).
  split_and!; [done..|].
  rewrite (main_resource_file (sampleCall {| output := threeProviders; failure := None |})
             _ (str "my-ns") Hp eq_refl); [|done|done|done|done].
  vm_compute. reflexivity.
Defined.

Lemma main_undefined_flag_witness :
  args {| args := [str "-namespace=my-namespace"; str "-branch=my-branch"];
          arg0 := str "mandatory-tags"; envBranchName := []; flagDefaults := [];
          fmtQ := λ s, s; git := sampleGit {| output := []; failure := None |} |}
  = (str "-" ++ str "namespace" ++ from_option (λ v, str "=" ++ v) []
                                     (Some (str "my-namespace")))
    :: [str "-branch=my-branch"]
  ∧ exitCode
      (main {| args := [str "-namespace=my-namespace"; str "-branch=my-branch"];
               arg0 := str "mandatory-tags"; envBranchName := []; flagDefaults := [];
               fmtQ := λ s, s;
               git := sampleGit {| output := []; failure := None |} |}) = 2.
Proof.
  split; [reflexivity|].
  rewrite (main_undefined_flag _ (str "namespace") (Some (str "my-namespace"))
             [str "-branch=my-branch"]); [done|done|done| |done|done|done].
  apply (bool_decide_unpack _). by vm_compute.
Defined.
